(** * The puppet session of matrix-skype-bridge ([src/puppet.js])

    A shallow embedding of the [Puppet] class: the membership cache filled by
    the [RoomState.members] listener, the start promise resolved by the
    [sync] listener, and the thin wrappers [getRoom], [joinRoom], [invite]
    and [associate] around the Matrix client.

    JavaScript values are a small tree datatype; plain objects are finite
    maps ([gmap string _]).  The methods run in a monad that threads the
    fields of [this], records every call made to a collaborator (logger,
    readline, file system, SDK, client) and carries a thrown value.  What a
    collaborator answers is an input of the model. *)

From Stdlib Require Import Ascii.
From stdpp Require Import gmap strings list fin_maps.

#[local] Set Warnings "-register-all".

(** ** JavaScript values *)

Section Model.

(** Numbers are kept abstract: the program never computes with them, it can
    only render one inside a template literal. *)
Context {number : Type}.
Variable number_toString : number → string.

Inductive value : Type :=
  | VUndefined
  | VNull
  | VBool (b : bool)
  | VNum (n : number)
  | VStr (s : string)
  | VArr (elems : list value)
  | VObj (props : gmap string value).

Definition nl : string := String "010"%char "".

(** [ToString], as applied by a template literal [`${v}`]. *)
Fixpoint ToString (v : value) : string :=
  match v with
  | VUndefined => "undefined"
  | VNull => "null"
  | VBool true => "true"
  | VBool false => "false"
  | VNum n => number_toString n
  | VStr s => s
  | VArr elems =>
      (fix join (l : list value) : string :=
         match l with
         | [] => ""
         | x :: rest =>
             match x with
             | VUndefined | VNull => ""
             | _ => ToString x
             end +:+
             match rest with
             | [] => ""
             | _ :: _ => "," +:+ join rest
             end
         end) elems
  | VObj _ => "[object Object]"
  end.

(** A completion: normal with a result, or abrupt with the thrown value.
    An awaited promise completes the same way: fulfilled or rejected. *)
Inductive completion (A : Type) : Type :=
  | Normal (a : A)
  | Throw (e : value).
Arguments Normal {A} a.
Arguments Throw {A} e.

Definition TypeError (message : string) : value :=
  VObj (<["name" := VStr "TypeError"]> (<["message" := VStr message]> ∅)).

(** The [TypeError] of reading property [k] of [undefined] or [null]. The
    text of its message is the engine's and changes between versions; the
    one written here is one of them, and no statement depends on it. *)
Definition cannot_read (k what : string) : value :=
  TypeError ("Cannot read property '" +:+ k +:+ "' of " +:+ what).

(** Property read [v.k], for the names the program reads ([bridge],
    [homeserverUrl], [domain], [puppet], [id], [token], [message]): none of
    them is a member of a primitive, of an array or of [Object.prototype],
    so only an own property of an object can answer. *)
Definition get_prop (v : value) (k : string) : completion value :=
  match v with
  | VUndefined => Throw (cannot_read k "undefined")
  | VNull => Throw (cannot_read k "null")
  | VObj props => Normal (default VUndefined (props !! k))
  | VBool _ | VNum _ | VStr _ | VArr _ => Normal VUndefined
  end.

(** [v === s] for a string literal [s]. *)
Definition strict_equals_string (v : value) (s : string) : bool :=
  match v with
  | VStr t => bool_decide (t = s)
  | _ => false
  end.

(** [JSON.stringify(v, null, indent)] is a primitive of the runtime. *)
Variable JSON_stringify : value → nat → string.

(** ** Collaborators *)

(** What the SDK resolves [getRoomIdForAlias] and [loginWithPassword] with. *)
Record RoomIdResponse := { room_id : value }.
Record LoginResponse := { access_token : value }.

Record Room := { room_roomId : string; room_getAliases : list string }.

(** The Matrix client: each method is given by what it answers. For a
    method that returns a promise the answer is how the promise settles. *)
Record MatrixClient := {
  credentials : value;
  client_startClient : completion unit;
  getRoomIdForAlias : string → completion RoomIdResponse;
  getRooms : list Room;
  client_joinRoom : string → completion value;
  client_invite : string → string → completion value;
  loginWithPassword : string → string → completion LoginResponse;
  mxcUrlToHttp : string → value;
}.

(** The injected [sdk], [readline] and [fs]. The object keeps them in
    [this.sdk], [this.readline] and [this.fs] from its construction on; what
    they answer can change from one call of a method to the next, so the
    model hands their answers to each method that uses them. *)
Record Env := {
  createClient : value → completion MatrixClient;
  question : string → bool → completion string;
  writeFile : string → string → completion unit;
}.

(** ** The object *)

Record Puppet := {
  config : gmap string value;
  pathToConfig : string;
  client : option MatrixClient;
  matrixRoomMembers : gmap string (list string);
}.

Definition constructor (pathToConfig : string) (client : option MatrixClient)
    (config : gmap string value) : Puppet :=
  {| config := config;
     pathToConfig := pathToConfig;
     client := client;
     matrixRoomMembers := ∅ |}.

(** ** Effects *)

Inductive level := LDebug | LInfo | LWarn | LError.

Inductive effect : Type :=
  | Log (l : level) (args : list value)
  | Question (query : string) (hideEchoBack : bool)
  | CreateClient (opts : value)
  | StartClient
  | On (eventName : string)
  | GetRoomIdForAlias (roomAlias : string)
  | GetRooms
  | JoinRoom (roomId : string)
  | Invite (roomId user : string)
  | LoginWithPassword (user password : string)
  | MxcUrlToHttp (url : string)
  | WriteFile (path data : string)
  | Settled (v : completion value).

(** ** The monad of methods: state of [this], trace, completion *)

Definition M (A : Type) : Type := Puppet → list effect * Puppet * completion A.

Definition ret {A} (a : A) : M A := λ p, ([], p, Normal a).

Definition throw {A} (e : value) : M A := λ p, ([], p, Throw e).

Definition bind {A B} (m : M A) (k : A → M B) : M B :=
  λ p,
    match m p with
    | (t, p', Normal a) =>
        match k a p' with
        | (t', p'', c) => (t ++ t', p'', c)
        end
    | (t, p', Throw e) => (t, p', Throw e)
    end.

(** [try { m } catch (err) { handler err }] *)
Definition try_catch {A} (m : M A) (handler : value → M A) : M A :=
  λ p,
    match m p with
    | (t, p', Normal a) => (t, p', Normal a)
    | (t, p', Throw e) =>
        match handler e p' with
        | (t', p'', c) => (t ++ t', p'', c)
        end
    end.

Definition lift {A} (c : completion A) : M A := λ p, ([], p, c).

Definition perform (e : effect) : M unit := λ p, ([e], p, Normal tt).

(** A call to a collaborator: the call is recorded, its answer continues. *)
Definition call {A} (e : effect) (answer : completion A) : M A :=
  λ p, ([e], p, answer).

(** A call of the logger: it returns [undefined] and does not throw. *)
Definition log (l : level) (args : list value) : M unit := perform (Log l args).

Definition this_config : M (gmap string value) := λ p, ([], p, Normal (config p)).

Definition this_pathToConfig : M string := λ p, ([], p, Normal (pathToConfig p)).

(** [this.client.name]: a [TypeError] while [this.client] is undefined. *)
Definition this_client (name : string) : M MatrixClient :=
  λ p,
    match client p with
    | Some mc => ([], p, Normal mc)
    | None => ([], p, Throw (cannot_read name "undefined"))
    end.

Definition set_client (mc : MatrixClient) : M unit :=
  λ p,
    ([], {| config := config p;
            pathToConfig := pathToConfig p;
            client := Some mc;
            matrixRoomMembers := matrixRoomMembers p |}, Normal tt).

Definition set_matrixRoomMembers (members : gmap string (list string)) : M unit :=
  λ p,
    ([], {| config := config p;
            pathToConfig := pathToConfig p;
            client := client p;
            matrixRoomMembers := members |}, Normal tt).

#[local] Instance M_ret : MRet M := @ret.
#[local] Instance M_bind : MBind M := λ A B k m, bind m k.

(** ** Room identifiers and room state *)

(** A Matrix room identifier is an opaque string behind the [!] sigil.  The
    listener receives the identifier the client holds for the room. *)
Record RoomId := { opaque_id : string }.

Definition room_id_string (r : RoomId) : string := String "!"%char (opaque_id r).

(** [state.members], an object from user identifier to room member: its own
    properties in the order [Object.keys] lists them, each key once. *)
Record MembersObject := {
  member_entries : list (string * value);
  member_keys_unique : NoDup (member_entries.*1);
}.

Definition Object_keys (o : MembersObject) : list string := (member_entries o).*1.

Record RoomState := {
  roomId : RoomId;
  members : MembersObject;
}.

(** ** Methods *)

(** The listener of ['RoomState.members'] registered by [startClient]. *)
Definition onRoomStateMembers (state : RoomState) : M unit :=
  λ p,
    ([], {| config := config p;
            pathToConfig := pathToConfig p;
            client := client p;
            matrixRoomMembers :=
              <[room_id_string (roomId state) := Object_keys (members state)]>
                (matrixRoomMembers p) |}, Normal tt).

(** The body of [startClient] up to the [return] of the new promise: the
    executor of the promise has run when this completes normally. *)
Definition startClient (env : Env) : M unit :=
  cfg ← this_config;
  baseUrl ← lift (get_prop (default VUndefined (cfg !! "bridge")) "homeserverUrl");
  userId ← lift (get_prop (default VUndefined (cfg !! "puppet")) "id");
  accessToken ← lift (get_prop (default VUndefined (cfg !! "puppet")) "token");
  let opts :=
    VObj (<["baseUrl" := baseUrl]>
            (<["userId" := userId]> (<["accessToken" := accessToken]> ∅))) in
  mc ← call (CreateClient opts) (createClient env opts);
  set_client mc;;
  mc' ← this_client "startClient";
  call StartClient (client_startClient mc');;
  set_matrixRoomMembers ∅;;
  perform (On "RoomState.members");;
  perform (On "sync");;
  mret tt.

(** The names every plain object inherits from [Object.prototype]. *)
Definition Object_prototype_names : list string :=
  [ "constructor"; "__defineGetter__"; "__defineSetter__"; "hasOwnProperty";
    "__lookupGetter__"; "__lookupSetter__"; "isPrototypeOf";
    "propertyIsEnumerable"; "toString"; "valueOf"; "__proto__";
    "toLocaleString" ].

(** What [getMatrixRoomMembers] hands back: an array of user identifiers, or,
    for a name found on the prototype, the inherited member. *)
Inductive members_result :=
  | MemberList (users : list string)
  | InheritedMember (name : string).

(** [this.matrixRoomMembers[roomId] || []]: an own property holds an array,
    and an array is truthy even when empty; an inherited member is a
    function or an object, truthy as well; [undefined] gives way to []. *)
Definition getMatrixRoomMembers (roomId : string) (p : Puppet) : members_result :=
  match matrixRoomMembers p !! roomId with
  | Some users => MemberList users
  | None =>
      if bool_decide (roomId ∈ Object_prototype_names)
      then InheritedMember roomId
      else MemberList []
  end.

Definition getUserId : M value :=
  mc ← this_client "credentials";
  lift (get_prop (credentials mc) "userId").

Definition getClient : M (option MatrixClient) := λ p, ([], p, Normal (client p)).

Definition getRoom (roomAlias : string) : M value :=
  try_catch
    (mc ← this_client "getRoomIdForAlias";
     response ← call (GetRoomIdForAlias roomAlias) (getRoomIdForAlias mc roomAlias);
     let roomId := room_id response in
     log LDebug [VStr "found matrix room via alias. room_id:"; roomId];;
     mret roomId)
    (λ err,
       log LDebug
         [VStr "the room doesn't exist. we need to create it for the first time"];;
       mret VUndefined).

Definition getRoomAliases (matrixRoomId : string) : M (option (list string)) :=
  mc ← this_client "getRooms";
  perform GetRooms;;
  let room :=
    List.find (λ r, bool_decide (room_roomId r = matrixRoomId)) (getRooms mc) in
  mret (room_getAliases <$> room).

Definition no_known_servers_warning : string :=
  "we cannot use this room anymore because you cannot currently rejoin an empty room (synapse limitation? riot throws this error too). we need to de-alias it now so a new room gets created that we can actually use.".

Definition joinRoom (matrixRoomId : string) : M value :=
  try_catch
    (mc ← this_client "joinRoom";
     call (JoinRoom matrixRoomId) (client_joinRoom mc matrixRoomId);;
     mret VUndefined)
    (λ err,
       message ← lift (get_prop err "message");
       if strict_equals_string message "No known servers"
       then log LWarn [VStr no_known_servers_warning];; mret (VBool true)
       else
         log LWarn [VStr "ignoring error from puppet join room: "; message];;
         mret VUndefined).

(** *** Promises *)

Inductive promise_state :=
  | Pending
  | Fulfilled (v : value)
  | Rejected (e : value).

(** The resolving functions of a promise: the first call settles it, any
    later call is ignored. A settlement is recorded in the trace. *)
Definition promise_resolve (v : value) (pr : promise_state)
    : list effect * promise_state :=
  match pr with
  | Pending => ([Settled (Normal v)], Fulfilled v)
  | Fulfilled _ | Rejected _ => ([], pr)
  end.

Definition promise_reject (e : value) (pr : promise_state)
    : list effect * promise_state :=
  match pr with
  | Pending => ([Settled (Throw e)], Rejected e)
  | Fulfilled _ | Rejected _ => ([], pr)
  end.

(** [Promise.all]: one slot per element, filled when the element fulfils. *)
Record PromiseAll := {
  all_values : list (option value);
  all_promise : promise_state;
}.

Fixpoint collect (slots : list (option value)) : option (list value) :=
  match slots with
  | [] => Some []
  | None :: _ => None
  | Some v :: rest =>
      match collect rest with
      | Some vs => Some (v :: vs)
      | None => None
      end
  end.

Definition Promise_all (n : nat) : PromiseAll :=
  {| all_values := replicate n None;
     all_promise :=
       match n with
       | O => Fulfilled (VArr [])
       | S _ => Pending
       end |}.

(** Element [i] fulfils with [v]. *)
Definition all_resolve_element (i : nat) (v : value) (st : PromiseAll)
    : list effect * PromiseAll :=
  match all_values st !! i with
  | Some None =>
      let slots := <[i := Some v]> (all_values st) in
      match collect slots with
      | Some vs =>
          match promise_resolve (VArr vs) (all_promise st) with
          | (t, pr) => (t, {| all_values := slots; all_promise := pr |})
          end
      | None => ([], {| all_values := slots; all_promise := all_promise st |})
      end
  | _ => ([], st)
  end.

(** An element rejects with [e]. *)
Definition all_reject (e : value) (st : PromiseAll) : list effect * PromiseAll :=
  match promise_reject e (all_promise st) with
  | (t, pr) => (t, {| all_values := all_values st; all_promise := pr |})
  end.

(** *** invite *)

(** One element handed to [Promise.all]: the promise of
    [this.client.invite(matrixRoomId, user)] chained with the logging
    callback; [invite_outcome] is how the client's promise settles. *)
Record InvitePromise := {
  invite_user : string;
  invite_outcome : completion value;
}.

Inductive invite_return :=
  | ReturnUndefined
  | ReturnPromiseAll (elements : list InvitePromise).

Fixpoint invite_each (matrixRoomId : string) (users : list string)
    : M (list InvitePromise) :=
  match users with
  | [] => mret []
  | user :: rest =>
      mc ← this_client "invite";
      perform (Invite matrixRoomId user);;
      elements ← invite_each matrixRoomId rest;
      mret ({| invite_user := user;
               invite_outcome := client_invite mc matrixRoomId user |} :: elements)
  end.

(** [invitedUsers] is [None] for [undefined]. *)
Definition invite (matrixRoomId : string) (invitedUsers : option (list string))
    : M invite_return :=
  match invitedUsers with
  | None =>
      log LDebug
        [VStr "All members in skype skypeRoom are already joined to Matrix room: ";
         VStr matrixRoomId];;
      mret ReturnUndefined
  | Some users =>
      log LInfo [VStr "Users to invite"; VArr (VStr <$> users)];;
      elements ← invite_each matrixRoomId users;
      mret (ReturnPromiseAll elements)
  end.

(** The client's promise of element [i] settles: when it fulfils, the
    [then] callback logs and the element fulfils with the callback's result;
    when it rejects, the element rejects with the same reason. The result
    of the callback is what [log.debug] returns, taken to be [undefined]
    here: the logger is outside this file, and no statement depends on the
    values the aggregate is fulfilled with. *)
Definition settle_invite (matrixRoomId : string) (elements : list InvitePromise)
    (i : nat) (st : PromiseAll) : list effect * PromiseAll :=
  match elements !! i with
  | None => ([], st)
  | Some el =>
      match invite_outcome el with
      | Normal _ =>
          match all_resolve_element i VUndefined st with
          | (t, st') =>
              (Log LDebug [VStr "New user %s invited to room %s";
                           VStr (invite_user el); VStr matrixRoomId] :: t, st')
          end
      | Throw e => all_reject e st
      end
  end.

(** The promises settle in the order of [schedule]; a promise settles once,
    so an index met again is skipped, and an invite that is not in the
    schedule is still pending. *)
Fixpoint settle_invites (matrixRoomId : string) (elements : list InvitePromise)
    (schedule : list nat) (settled : gset nat) (st : PromiseAll)
    : list effect * PromiseAll :=
  match schedule with
  | [] => ([], st)
  | i :: rest =>
      if bool_decide (i ∈ settled)
      then settle_invites matrixRoomId elements rest settled st
      else
        match settle_invite matrixRoomId elements i st with
        | (t, st') =>
            match settle_invites matrixRoomId elements rest ({[i]} ∪ settled) st' with
            | (t', st'') => (t ++ t', st'')
            end
        end
  end.

(** The aggregate promise of [invite] after the invites of [schedule] have
    settled. *)
Definition invite_all (matrixRoomId : string) (elements : list InvitePromise)
    (schedule : list nat) : list effect * promise_state :=
  match settle_invites matrixRoomId elements schedule ∅
          (Promise_all (length elements)) with
  | (t, st) => (t, all_promise st)
  end.

(** *** associate *)

Definition puppet_record (id localpart : string) (token : value) : value :=
  VObj (<["id" := VStr id]>
          (<["localpart" := VStr localpart]> (<["token" := token]> ∅))).

Definition localpart_query : string := "Enter your user's localpart" +:+ nl.

Definition account_id (localpart : string) (domain : value) : string :=
  "@" +:+ localpart +:+ ":" +:+ ToString domain.

Definition password_query (id : string) : string :=
  "Enter password for " +:+ id +:+ nl.

Definition associate (env : Env) : M unit :=
  try_catch
    (log LInfo
       [VStr ("This bridge performs matrix user puppeting." +:+ nl +:+
              "This means that the bridge logs in as your user and acts on your behalf")];;
     localpart ← call (Question localpart_query false) (question env localpart_query false);
     cfg ← this_config;
     domain ← lift (get_prop (default VUndefined (cfg !! "bridge")) "domain");
     let id := account_id localpart domain in
     password ←
       call (Question (password_query id) true) (question env (password_query id) true);
     homeserverUrl ←
       lift (get_prop (default VUndefined (cfg !! "bridge")) "homeserverUrl");
     matrixClient ← call (CreateClient homeserverUrl) (createClient env homeserverUrl);
     accessDat ←
       call (LoginWithPassword id password) (loginWithPassword matrixClient id password);
     log LInfo [VStr "log in success"];;
     path ← this_pathToConfig;
     let data :=
       JSON_stringify
         (VObj (<["puppet" := puppet_record id localpart (access_token accessDat)]> cfg))
         2 in
     call (WriteFile path data) (writeFile env path data);;
     log LInfo [VStr ("Updated config file " +:+ path)])
    (λ error, log LError [error];; throw error).

Definition getHttpUrl (url : string) : M value :=
  mc ← this_client "mxcUrlToHttp";
  perform (MxcUrlToHttp url);;
  mret (mxcUrlToHttp mc url).

(** ** The session over time *)

(** [started] is [None] until a [startClient] has registered its listeners;
    then it holds the promise the latest such call returned. The events of
    a run are those of the client that call created. An [async] function
    that returns a promise settles as that promise does, so the promise of
    the executor stands for the one the caller holds. *)
Record System := {
  this : Puppet;
  started : option promise_state;
}.

(** The listener of ['sync'] registered by [startClient]. *)
Definition onSync (state : string) (pr : promise_state)
    : list effect * promise_state :=
  if bool_decide (state = "PREPARED")
  then
    match promise_resolve VUndefined pr with
    | (t, pr') => (Log LInfo [VStr "synced"] :: t, pr')
    end
  else ([], pr).

(** What can happen to a session: a method is called, with what the
    collaborators answer to it, or the client emits an event. *)
Inductive action :=
  | CallStartClient (env : Env)
  | CallGetMatrixRoomMembers (roomId : string)
  | CallGetUserId
  | CallGetClient
  | CallGetRoom (roomAlias : string)
  | CallGetRoomAliases (matrixRoomId : string)
  | CallJoinRoom (matrixRoomId : string)
  | CallInvite (matrixRoomId : string) (invitedUsers : option (list string))
  | CallAssociate (env : Env)
  | CallGetHttpUrl (url : string)
  | EmitRoomStateMembers (state : RoomState)
  | EmitSync (state : string).

Definition exec {A} (m : M A) (s : System) : list effect * System :=
  match m (this s) with
  | (t, p, _) => (t, {| this := p; started := started s |})
  end.

Definition step (a : action) (s : System) : list effect * System :=
  match a with
  | CallStartClient env =>
      match startClient env (this s) with
      | (t, p, Normal _) => (t, {| this := p; started := Some Pending |})
      | (t, p, Throw _) => (t, {| this := p; started := started s |})
      end
  | CallGetMatrixRoomMembers _ => ([], s)
  | CallGetUserId => exec getUserId s
  | CallGetClient => exec getClient s
  | CallGetRoom roomAlias => exec (getRoom roomAlias) s
  | CallGetRoomAliases matrixRoomId => exec (getRoomAliases matrixRoomId) s
  | CallJoinRoom matrixRoomId => exec (joinRoom matrixRoomId) s
  | CallInvite matrixRoomId invitedUsers => exec (invite matrixRoomId invitedUsers) s
  | CallAssociate env => exec (associate env) s
  | CallGetHttpUrl url => exec (getHttpUrl url) s
  | EmitRoomStateMembers state =>
      match started s with
      | Some _ => exec (onRoomStateMembers state) s
      | None => ([], s)
      end
  | EmitSync state =>
      match started s with
      | Some pr =>
          match onSync state pr with
          | (t, pr') => (t, {| this := this s; started := Some pr' |})
          end
      | None => ([], s)
      end
  end.

Fixpoint run (acts : list action) (s : System) : list effect * System :=
  match acts with
  | [] => ([], s)
  | a :: rest =>
      match step a s with
      | (t, s') =>
          match run rest s' with
          | (t', s'') => (t ++ t', s'')
          end
      end
  end.

(** A session as [new Puppet(...)] leaves it. *)
Definition new_Puppet (pathToConfig : string) (client : option MatrixClient)
    (config : gmap string value) : System :=
  {| this := constructor pathToConfig client config; started := None |}.

(** ** Reading a trace *)

Definition trace_of {A} (r : list effect * Puppet * completion A) : list effect := r.1.1.

Definition state_of {A} (r : list effect * Puppet * completion A) : Puppet := r.1.2.

Definition result_of {A} (r : list effect * Puppet * completion A) : completion A := r.2.

Definition invites_of (t : list effect) : list (string * string) :=
  omap (λ e, match e with Invite r u => Some (r, u) | _ => None end) t.

Definition writes_of (t : list effect) : list (string * string) :=
  omap (λ e, match e with WriteFile path data => Some (path, data) | _ => None end) t.

Definition settlements_of (t : list effect) : list (completion value) :=
  omap (λ e, match e with Settled c => Some c | _ => None end) t.

Definition logs_of (t : list effect) : list (level * list value) :=
  omap (λ e, match e with Log l args => Some (l, args) | _ => None end) t.

(** ** Kinds of actions *)

#[local] Instance RoomId_eq_dec : EqDecision RoomId.
Proof. solve_decision. Defined.

Definition is_start (a : action) : bool :=
  match a with
  | CallStartClient _ => true
  | _ => false
  end.

Definition is_members_event_for (r : RoomId) (a : action) : bool :=
  match a with
  | EmitRoomStateMembers state => bool_decide (roomId state = r)
  | _ => false
  end.

Definition is_prepared (a : action) : bool :=
  match a with
  | EmitSync state => bool_decide (state = "PREPARED")
  | _ => false
  end.

(** ** Sample data *)

Definition sample_bridge : value :=
  VObj (<["homeserverUrl" := VStr "https://hs.example"]>
          (<["domain" := VStr "example.org"]> ∅)).

Definition sample_config : gmap string value :=
  <["bridge" := sample_bridge]>
    (<["puppet" := VObj (<["id" := VStr "@bob:example.org"]>
                           (<["token" := VStr "tok"]> ∅))]> ∅).

Definition error_with_message (message : string) : value :=
  VObj (<["message" := VStr message]> ∅).

Definition sample_client : MatrixClient :=
  {| credentials := VObj (<["userId" := VStr "@bob:example.org"]> ∅);
     client_startClient := Normal tt;
     getRoomIdForAlias := λ _, Throw (error_with_message "Room alias not found");
     getRooms := [];
     client_joinRoom := λ r,
       if bool_decide (r = "!empty:example.org")
       then Throw (error_with_message "No known servers")
       else if bool_decide (r = "!private:example.org")
       then Throw (error_with_message "You are not invited to this room")
       else Normal VUndefined;
     client_invite := λ _ u,
       if bool_decide (u = "@eve:example.org")
       then Throw (error_with_message "User is banned")
       else Normal VUndefined;
     loginWithPassword := λ u pw,
       if bool_decide (pw = "secret")
       then Normal {| access_token := VStr "fresh-token" |}
       else Throw (error_with_message "Invalid password");
     mxcUrlToHttp := λ _, VNull |}.

Definition sample_env : Env :=
  {| createClient := λ _, Normal sample_client;
     question := λ _ hide, Normal (if hide then "secret" else "bob");
     writeFile := λ _ _, Normal tt |}.

Definition wrong_password_env : Env :=
  {| createClient := λ _, Normal sample_client;
     question := λ _ hide, Normal (if hide then "guess" else "bob");
     writeFile := λ _ _, Normal tt |}.

Definition failing_env : Env :=
  {| createClient := λ _, Throw (error_with_message "cannot create client");
     question := λ _ _, Normal "";
     writeFile := λ _ _, Normal tt |}.

Definition sample_room : RoomId := {| opaque_id := "abc:example.org" |}.

Definition members_abc : MembersObject :=
  {| member_entries := [("@a:example.org", VNull); ("@b:example.org", VNull);
                        ("@c:example.org", VNull)];
     member_keys_unique := ltac:(refine (bool_decide_unpack _ _); vm_compute; exact I) |}.

Definition members_ab : MembersObject :=
  {| member_entries := [("@a:example.org", VNull); ("@b:example.org", VNull)];
     member_keys_unique := ltac:(refine (bool_decide_unpack _ _); vm_compute; exact I) |}.

Definition sample_puppet : Puppet :=
  {| config := sample_config;
     pathToConfig := "config.json";
     client := Some sample_client;
     matrixRoomMembers := ∅ |}.

(** ** Predicates of the proofs *)

(** A method that leaves [this] alone and settles no promise. *)
Definition keeps_this {A} (m : M A) : Prop :=
  ∀ p, state_of (m p) = p ∧ settlements_of (trace_of (m p)) = [].

(** The element [invite] builds for one user of a started session. *)
Definition invite_promise (mc : MatrixClient) (matrixRoomId user : string)
    : InvitePromise :=
  {| invite_user := user; invite_outcome := client_invite mc matrixRoomId user |}.

(** The state of the aggregate while the invite at index [i] has not
    fulfilled: its slot is empty and the aggregate is not fulfilled. *)
Definition awaits (i : nat) (st : PromiseAll) : Prop :=
  all_values st !! i = Some None ∧ ∀ v, all_promise st ≠ Fulfilled v.

(** ** More readers of values and traces *)

(** [undefined] and [null]: the values a property cannot be read from. *)
Definition is_nullish (v : value) : bool :=
  match v with
  | VUndefined | VNull => true
  | _ => false
  end.


(** The lookups [getRoom] asked of the client. *)
Definition lookups_of (t : list effect) : list string :=
  omap (λ e, match e with GetRoomIdForAlias a => Some a | _ => None end) t.

(** The users of the lines [New user %s invited to room %s]. *)
Definition invited_of (t : list effect) : list string :=
  omap (λ e, match e with
             | Log LDebug [VStr _; VStr user; VStr _] => Some user
             | _ => None
             end) t.

(** The lines [synced] of the sync listener. *)
Definition synced_of (t : list effect) : list unit :=
  omap (λ e, match e with
             | Log LInfo [VStr line] =>
                 if bool_decide (line = "synced") then Some tt else None
             | _ => None
             end) t.

(** What a promise is once it has settled as [c]. *)
Definition promise_of (c : completion value) : promise_state :=
  match c with
  | Normal v => Fulfilled v
  | Throw e => Rejected e
  end.

(** The reason of the first invite of [schedule] that fails. *)
Fixpoint first_failure (elements : list InvitePromise) (schedule : list nat)
    : option value :=
  match schedule with
  | [] => None
  | i :: rest =>
      match invite_outcome <$> elements !! i with
      | Some (Throw e) => Some e
      | _ => first_failure elements rest
      end
  end.

(** The slots of an aggregate of [n] invites that all succeed, once those
    of [settled] have. *)
Definition slots_of (settled : gset nat) (n : nat) : list (option value) :=
  (λ i, if bool_decide (i ∈ settled) then Some VUndefined else None) <$> seq 0 n.

(** The argument [startClient] hands to [createClient]. *)
Definition client_options (baseUrl userId accessToken : value) : value :=
  VObj (<["baseUrl" := baseUrl]>
          (<["userId" := userId]> (<["accessToken" := accessToken]> ∅))).

(** ** More sample data *)

(** A client that knows two rooms and resolves one alias. *)
Definition known_rooms_client : MatrixClient :=
  {| credentials := VObj (<["userId" := VStr "@bob:example.org"]> ∅);
     client_startClient := Normal tt;
     getRoomIdForAlias := λ a,
       if bool_decide (a = "#known:example.org")
       then Normal {| room_id := VStr "!known:example.org" |}
       else Throw (error_with_message "Room alias not found");
     getRooms :=
       [ {| room_roomId := "!abc:example.org";
            room_getAliases := ["#abc:example.org"] |};
         {| room_roomId := "!known:example.org";
            room_getAliases := ["#known:example.org"; "#skype_1:example.org"] |} ];
     client_joinRoom := λ _, Normal VUndefined;
     client_invite := λ _ _, Normal VUndefined;
     loginWithPassword := λ _ _, Throw (error_with_message "Invalid password");
     mxcUrlToHttp := λ _, VNull |}.

Definition known_rooms_puppet : Puppet :=
  {| config := sample_config;
     pathToConfig := "config.json";
     client := Some known_rooms_client;
     matrixRoomMembers := ∅ |}.

(** An object built without client, and objects whose configuration lacks
    a section or a setting. *)
Definition unstarted_puppet : Puppet := constructor "config.json" None sample_config.

Definition unconfigured_puppet : Puppet := constructor "config.json" None ∅.

Definition sparse_config : gmap string value :=
  <["bridge" := VObj (<["homeserverUrl" := VStr "https://hs.example"]> ∅)]>
    (<["puppet" := VObj ∅]> ∅).

Definition sparse_puppet : Puppet := constructor "config.json" None sparse_config.

(** A serialiser to stand for [JSON.stringify] in the examples: compact,
    strings in single quotes, the keys of an object in the order of the map;
    two objects that differ in a key or in a value are written apart. *)
Definition quoted (s : string) : string := "'" +:+ s +:+ "'".

Fixpoint sample_serialise (v : value) : string :=
  match v with
  | VUndefined | VNull => "null"
  | VBool true => "true"
  | VBool false => "false"
  | VNum n => number_toString n
  | VStr s => quoted s
  | VArr elems =>
      "[" +:+
      (fix items (l : list value) : string :=
         match l with
         | [] => ""
         | x :: rest =>
             sample_serialise x +:+
             match rest with
             | [] => ""
             | _ :: _ => "," +:+ items rest
             end
         end) elems +:+ "]"
  | VObj props =>
      "{" +:+
      map_fold (λ key x text,
                  quoted key +:+ ":" +:+ sample_serialise x +:+
                  (if bool_decide (text = "") then "" else "," +:+ text))
        "" props +:+ "}"
  end.

Definition sample_stringify (v : value) (indent : nat) : string :=
  sample_serialise v.



(** * Properties *)

(** ** Methods that leave [this] alone and settle no promise *)

Lemma settlements_of_app t t' :
  settlements_of (t ++ t') = settlements_of t ++ settlements_of t'.
Proof. apply omap_app. Qed.

Lemma keeps_ret {A} (a : A) : keeps_this (mret a).
Proof. by intros p. Qed.

Lemma keeps_throw {A} (e : value) : keeps_this (@throw A e).
Proof. by intros p. Qed.

Lemma keeps_lift {A} (c : completion A) : keeps_this (lift c).
Proof. by intros p. Qed.

Lemma keeps_perform e : settlements_of [e] = [] → keeps_this (perform e).
Proof. by intros He p. Qed.

Lemma keeps_call {A} e (c : completion A) :
  settlements_of [e] = [] → keeps_this (call e c).
Proof. by intros He p. Qed.

Lemma keeps_log l args : keeps_this (log l args).
Proof. by intros p. Qed.

Lemma keeps_this_config : keeps_this this_config.
Proof. by intros p. Qed.

Lemma keeps_this_pathToConfig : keeps_this this_pathToConfig.
Proof. by intros p. Qed.

Lemma keeps_this_client name : keeps_this (this_client name).
Proof. intros p. unfold this_client. by destruct (client p). Qed.

Lemma keeps_bind {A B} (m : M A) (k : A → M B) :
  keeps_this m → (∀ a, keeps_this (k a)) → keeps_this (m ≫= k).
Proof.
  intros Hm Hk p. destruct (Hm p) as [Hp Ht].
  unfold mbind, M_bind, bind, state_of, trace_of in *.
  destruct (m p) as [[t p'] [a|e]]; simpl in *; subst; [|done].
  destruct (Hk a p) as [Hp' Ht']. unfold state_of, trace_of in *.
  destruct (k a p) as [[t' p''] c]; simpl in *.
  by rewrite settlements_of_app, Ht, Ht'.
Qed.

Lemma keeps_try_catch {A} (m : M A) (h : value → M A) :
  keeps_this m → (∀ e, keeps_this (h e)) → keeps_this (try_catch m h).
Proof.
  intros Hm Hh p. destruct (Hm p) as [Hp Ht].
  unfold try_catch, state_of, trace_of in *.
  destruct (m p) as [[t p'] [a|e]]; simpl in *; subst; [done|].
  destruct (Hh e p) as [Hp' Ht']. unfold state_of, trace_of in *.
  destruct (h e p) as [[t' p''] c]; simpl in *.
  by rewrite settlements_of_app, Ht, Ht'.
Qed.

Create HintDb keeps.
#[local] Hint Resolve keeps_ret keeps_throw keeps_lift keeps_log
  keeps_this_config keeps_this_pathToConfig keeps_this_client : keeps.

Ltac keeps_steps :=
  repeat first
    [ apply keeps_bind; [|intros ?]
    | apply keeps_try_catch; [|intros ?]
    | apply keeps_perform; reflexivity
    | apply keeps_call; reflexivity
    | progress auto with keeps
    | match goal with |- keeps_this (if ?b then _ else _) => destruct b end ].

Lemma keeps_getUserId : keeps_this getUserId.
Proof. unfold getUserId. keeps_steps. Qed.

Lemma keeps_getClient : keeps_this getClient.
Proof. by intros p. Qed.

Lemma keeps_getRoom roomAlias : keeps_this (getRoom roomAlias).
Proof. unfold getRoom. keeps_steps. Qed.

Lemma keeps_getRoomAliases matrixRoomId : keeps_this (getRoomAliases matrixRoomId).
Proof. unfold getRoomAliases. keeps_steps. Qed.

Lemma keeps_joinRoom matrixRoomId : keeps_this (joinRoom matrixRoomId).
Proof. unfold joinRoom. keeps_steps. Qed.

Lemma keeps_invite_each matrixRoomId users :
  keeps_this (invite_each matrixRoomId users).
Proof. induction users as [|user rest IH]; simpl; keeps_steps. Qed.

Lemma keeps_invite matrixRoomId invitedUsers :
  keeps_this (invite matrixRoomId invitedUsers).
Proof.
  destruct invitedUsers as [users|]; simpl; keeps_steps.
  apply keeps_invite_each.
Qed.

Lemma keeps_associate env : keeps_this (associate env).
Proof. unfold associate. keeps_steps. Qed.

Lemma keeps_getHttpUrl url : keeps_this (getHttpUrl url).
Proof. unfold getHttpUrl. keeps_steps. Qed.

Lemma exec_keeps {A} (m : M A) s : keeps_this m → (exec m s).2 = s.
Proof.
  intros Hm. destruct (Hm (this s)) as [Hp _]. unfold exec, state_of in *.
  destruct (m (this s)) as [[t p] c]; simpl in *; subst. by destruct s.
Qed.

Lemma exec_settles_nothing {A} (m : M A) s :
  keeps_this m → settlements_of (exec m s).1 = [].
Proof.
  intros Hm. destruct (Hm (this s)) as [_ Ht]. unfold exec, trace_of in *.
  by destruct (m (this s)) as [[t p] c].
Qed.

(** ** The cache along a run *)

#[local] Hint Resolve keeps_getUserId keeps_getClient keeps_getRoom
  keeps_getRoomAliases keeps_joinRoom keeps_invite keeps_associate
  keeps_getHttpUrl : keeps.

Lemma startClient_cache env p :
  match result_of (startClient env p) with
  | Normal _ => matrixRoomMembers (state_of (startClient env p)) = ∅
  | Throw _ => matrixRoomMembers (state_of (startClient env p)) = matrixRoomMembers p
  end.
Proof.
  unfold startClient, mbind, M_bind, bind, this_config, lift, call, set_client,
    this_client, set_matrixRoomMembers, perform, mret, M_ret, ret,
    result_of, state_of.
  simpl.
  destruct (get_prop (default VUndefined (config p !! "bridge")) "homeserverUrl");
    simpl; [|done].
  destruct (get_prop (default VUndefined (config p !! "puppet")) "id");
    simpl; [|done].
  destruct (get_prop (default VUndefined (config p !! "puppet")) "token");
    simpl; [|done].
  destruct (createClient env _) as [mc|e]; simpl; [|done].
  by destruct (client_startClient mc).
Qed.

Lemma step_start_cache env s :
  match result_of (startClient env (this s)) with
  | Normal _ => matrixRoomMembers (this (step (CallStartClient env) s).2) = ∅
  | Throw _ =>
      matrixRoomMembers (this (step (CallStartClient env) s).2)
      = matrixRoomMembers (this s)
  end.
Proof.
  pose proof (startClient_cache env (this s)) as H.
  unfold step, result_of, state_of in *.
  by destruct (startClient env (this s)) as [[t p] [[]|e]].
Qed.

Lemma step_members_started state s pr :
  started s = Some pr →
  matrixRoomMembers (this (step (EmitRoomStateMembers state) s).2)
  = <[room_id_string (roomId state) := Object_keys (members state)]>
      (matrixRoomMembers (this s)).
Proof. intros H. simpl. by rewrite H. Qed.

Lemma step_members_cache state s :
  matrixRoomMembers (this (step (EmitRoomStateMembers state) s).2)
  = match started s with
    | Some _ =>
        <[room_id_string (roomId state) := Object_keys (members state)]>
          (matrixRoomMembers (this s))
    | None => matrixRoomMembers (this s)
    end.
Proof. simpl. by destruct (started s). Qed.

(** Every action but a start and a members event leaves [this] as it is. *)
Lemma step_other_this a s :
  is_start a = false →
  (∀ state, a ≠ EmitRoomStateMembers state) →
  this (step a s).2 = this s.
Proof.
  intros Hstart Hev.
  destruct a; simpl in *; try done;
    try (by rewrite exec_keeps by auto with keeps).
  - by destruct (Hev state).
  - destruct (started s) as [pr|]; [|done].
    by destruct (onSync state pr).
Qed.

Lemma step_started a s : is_Some (started s) → is_Some (started (step a s).2).
Proof.
  intros [pr Hpr].
  destruct a; simpl; rewrite ?Hpr; try (by eexists);
    try (by rewrite exec_keeps by auto with keeps).
  - destruct (startClient env (this s)) as [[t p] [[]|e]]; simpl; eauto.
  - destruct (onSync state pr); simpl; eauto.
Qed.

Lemma run_nil s : run [] s = ([], s).
Proof. done. Qed.

Lemma run_cons_state a acts s : (run (a :: acts) s).2 = (run acts (step a s).2).2.
Proof.
  simpl. destruct (step a s) as [t s']. simpl.
  by destruct (run acts s') as [t' s''].
Qed.

Lemma run_cons_trace a acts s :
  (run (a :: acts) s).1 = (step a s).1 ++ (run acts (step a s).2).1.
Proof.
  simpl. destruct (step a s) as [t s']. simpl.
  by destruct (run acts s') as [t' s''].
Qed.

Lemma run_app_state acts1 acts2 s :
  (run (acts1 ++ acts2) s).2 = (run acts2 (run acts1 s).2).2.
Proof.
  revert s. induction acts1 as [|a acts1 IH]; intros s; [done|].
  rewrite <-app_comm_cons, !run_cons_state. apply IH.
Qed.

Lemma run_app_trace acts1 acts2 s :
  (run (acts1 ++ acts2) s).1 = (run acts1 s).1 ++ (run acts2 (run acts1 s).2).1.
Proof.
  revert s. induction acts1 as [|a acts1 IH]; intros s; [done|].
  rewrite <-app_comm_cons, !run_cons_trace, run_cons_state, IH.
  by rewrite (assoc_L (++)).
Qed.

Lemma run_started acts s : is_Some (started s) → is_Some (started (run acts s).2).
Proof.
  revert s. induction acts as [|a acts IH]; intros s Hs; [done|].
  rewrite run_cons_state. apply IH. by apply step_started.
Qed.

Lemma room_id_string_inj r1 r2 : room_id_string r1 = room_id_string r2 → r1 = r2.
Proof. destruct r1, r2. unfold room_id_string. simpl. by intros [= ->]. Qed.

(** Actions that are neither a start nor a members event for [r] keep the
    entry of [r]. *)
Lemma step_quiet_lookup r a s :
  is_start a = false →
  is_members_event_for r a = false →
  matrixRoomMembers (this (step a s).2) !! room_id_string r
  = matrixRoomMembers (this s) !! room_id_string r.
Proof.
  intros Hstart Hev.
  destruct a as [| | | | | | | | | |state|];
    try (by rewrite step_other_this).
  rewrite step_members_cache. destruct (started s); [|done].
  simpl in Hev. apply bool_decide_eq_false in Hev.
  rewrite lookup_insert_ne; [done|].
  intros Heq. by apply room_id_string_inj in Heq.
Qed.

Lemma run_quiet_lookup r acts s :
  Forall (λ a, is_start a = false ∧ is_members_event_for r a = false) acts →
  matrixRoomMembers (this (run acts s).2) !! room_id_string r
  = matrixRoomMembers (this s) !! room_id_string r.
Proof.
  intros Hacts. revert s.
  induction Hacts as [|a acts [Hstart Hev] _ IH]; intros s; [done|].
  rewrite run_cons_state, IH. by apply step_quiet_lookup.
Qed.

(** No member of [Object.prototype] is named like a room identifier. *)
Lemma room_id_not_inherited r : room_id_string r ∉ Object_prototype_names.
Proof.
  unfold Object_prototype_names, room_id_string.
  rewrite !elem_of_cons, elem_of_nil. intros H.
  repeat (destruct H as [H|H]; [discriminate H|]). done.
Qed.

(** For a room identifier the query reads an own property or nothing. *)
Lemma getMatrixRoomMembers_room r p :
  getMatrixRoomMembers (room_id_string r) p
  = MemberList (default [] (matrixRoomMembers p !! room_id_string r)).
Proof.
  unfold getMatrixRoomMembers.
  destruct (matrixRoomMembers p !! room_id_string r); [done|].
  rewrite bool_decide_eq_false_2; [done|]. apply room_id_not_inherited.
Qed.

(** A name of [Object.prototype] that is no key of the cache answers with
    the inherited member; such a name is no room identifier. *)
Lemma getMatrixRoomMembers_inherited name p :
  name ∈ Object_prototype_names →
  matrixRoomMembers p !! name = None →
  getMatrixRoomMembers name p = InheritedMember name.
Proof.
  intros Hname Hown. unfold getMatrixRoomMembers.
  by rewrite Hown, bool_decide_eq_true_2.
Qed.

(** ** The membership cache *)

(** C1. A [RoomState.members] event for room [r] replaces the cached list of
    [r]: after an event with members [m1] and a later one with members [m2]
    for the same room, with no further event for [r] and no new start since,
    [getMatrixRoomMembers] returns the keys of [m2] and nothing of [m1]. *)
Theorem members_event_replaces (s : System) (pre mid post : list action)
    (r : RoomId) (m1 m2 : MembersObject) :
  is_Some (started s) →
  Forall (λ a, is_start a = false ∧ is_members_event_for r a = false) post →
  getMatrixRoomMembers (room_id_string r)
    (this (run (pre ++ EmitRoomStateMembers {| roomId := r; members := m1 |}
                  :: mid ++ EmitRoomStateMembers {| roomId := r; members := m2 |}
                  :: post) s).2)
  = MemberList (Object_keys m2).
Proof.
  intros Hs Hpost.
  rewrite getMatrixRoomMembers_room.
  rewrite run_app_state, run_cons_state, run_app_state, run_cons_state.
  rewrite run_quiet_lookup by done.
  set (s' := (run mid _).2).
  assert (is_Some (started s')) as [pr Hpr].
  { apply run_started, step_started, run_started, Hs. }
  rewrite (step_members_started _ _ pr) by done.
  simpl. by rewrite lookup_insert_eq.
Qed.

(** C7. A room that no [RoomState.members] event has named since the last
    start, or since the object was built, has the empty member list: the
    query is a total function, it returns [[]] and cannot raise. *)
Theorem unknown_room_has_no_members (r : RoomId) (acts : list action) :
  Forall (λ a, is_members_event_for r a = false) acts →
  (∀ pathToConfig client config,
     getMatrixRoomMembers (room_id_string r)
       (this (run acts (new_Puppet pathToConfig client config)).2)
     = MemberList [])
  ∧ (∀ s env,
       result_of (startClient env (this s)) = Normal tt →
       getMatrixRoomMembers (room_id_string r)
         (this (run (CallStartClient env :: acts) s).2)
       = MemberList []).
Proof.
  intros Hacts.
  assert (∀ s, matrixRoomMembers (this s) !! room_id_string r = None →
               matrixRoomMembers (this (run acts s).2) !! room_id_string r = None)
    as Hrun.
  { induction Hacts as [|a acts Hev _ IH]; intros s Hs; [done|].
    rewrite run_cons_state. apply IH.
    destruct (is_start a) eqn:Hstart.
    - destruct a; try done.
      pose proof (step_start_cache env s) as H.
      destruct (result_of (startClient env (this s))); rewrite H; [done|exact Hs].
    - by rewrite step_quiet_lookup. }
  split.
  - intros pathToConfig client config.
    rewrite getMatrixRoomMembers_room, Hrun; done.
  - intros s env Hok.
    rewrite getMatrixRoomMembers_room, run_cons_state, Hrun; [done|].
    pose proof (step_start_cache env s) as H. rewrite Hok in H.
    by rewrite H.
Qed.

(** The cached lists have no duplicates, whatever has happened. *)
Lemma step_cache_NoDup a s :
  map_Forall (λ _ users, NoDup users) (matrixRoomMembers (this s)) →
  map_Forall (λ _ users, NoDup users) (matrixRoomMembers (this (step a s).2)).
Proof.
  intros Hs.
  destruct a as [env| | | | | | | | | |state|];
    try (by rewrite step_other_this).
  - pose proof (step_start_cache env s) as H.
    destruct (result_of (startClient env (this s))); rewrite H;
      [apply map_Forall_empty|done].
  - rewrite step_members_cache. destruct (started s); [|done].
    apply map_Forall_insert_2; [|done].
    apply (member_keys_unique (members state)).
Qed.

Lemma run_cache_NoDup acts s :
  map_Forall (λ _ users, NoDup users) (matrixRoomMembers (this s)) →
  map_Forall (λ _ users, NoDup users) (matrixRoomMembers (this (run acts s).2)).
Proof.
  revert s. induction acts as [|a acts IH]; intros s Hs; [done|].
  rewrite run_cons_state. by apply IH, step_cache_NoDup.
Qed.

(** C10. Whatever the session has gone through since it was built, the
    member list returned for a room identifier lists no account twice. *)
Theorem members_have_no_duplicates (pathToConfig : string)
    (client : option MatrixClient) (config : gmap string value)
    (acts : list action) (r : RoomId) :
  ∃ users,
    getMatrixRoomMembers (room_id_string r)
      (this (run acts (new_Puppet pathToConfig client config)).2)
    = MemberList users
    ∧ NoDup users.
Proof.
  rewrite getMatrixRoomMembers_room. eexists. split; [done|].
  pose proof (run_cache_NoDup acts (new_Puppet pathToConfig client config)) as H.
  destruct (matrixRoomMembers _ !! room_id_string r) as [users|] eqn:Hr; simpl.
  - eapply (H ltac:(apply map_Forall_empty)), Hr.
  - constructor.
Qed.

(** C9, as the code has it. A [startClient] that gets its client created and
    started resets the cache to empty; one that fails before leaves the cache
    as it was; and every other action keeps all the keys of the cache. *)
Theorem cache_reset_and_growth (a : action) (s : System) :
  match a with
  | CallStartClient env =>
      match result_of (startClient env (this s)) with
      | Normal _ => matrixRoomMembers (this (step a s).2) = ∅
      | Throw _ =>
          matrixRoomMembers (this (step a s).2) = matrixRoomMembers (this s)
      end
  | _ =>
      dom (matrixRoomMembers (this s)) ⊆ dom (matrixRoomMembers (this (step a s).2))
  end.
Proof.
  destruct a as [env| | | | | | | | | |state|];
    try (by rewrite step_other_this).
  - apply step_start_cache.
  - rewrite step_members_cache. destruct (started s); [|done].
    rewrite dom_insert_L. set_solver.
Qed.

(** ** The start promise *)

Lemma exec_started {A} (m : M A) s : started (exec m s).2 = started s.
Proof. unfold exec. by destruct (m (this s)) as [[t p] c]. Qed.

(** An action that is neither a start nor a [PREPARED] sync leaves the
    promise alone. *)
Lemma step_idle a s :
  is_start a = false → is_prepared a = false →
  started (step a s).2 = started s ∧ settlements_of (step a s).1 = [].
Proof.
  intros Hstart Hprep.
  destruct a as [env| | | | | | | | | |state|state]; simpl in *; try done;
    try (by rewrite exec_started, exec_settles_nothing by auto with keeps).
  - destruct (started s) eqn:Hs; [|done]. by rewrite exec_started.
  - destruct (started s) as [pr|] eqn:Hs; [|done].
    unfold onSync. by rewrite Hprep.
Qed.

Lemma run_idle acts s :
  Forall (λ a, is_start a = false ∧ is_prepared a = false) acts →
  started (run acts s).2 = started s ∧ settlements_of (run acts s).1 = [].
Proof.
  intros Hacts. revert s.
  induction Hacts as [|a acts [Hstart Hprep] _ IH]; intros s; [done|].
  rewrite run_cons_state, run_cons_trace, settlements_of_app.
  destruct (IH (step a s).2) as [-> ->].
  destruct (step_idle a s) as [-> ->]; done.
Qed.

(** Once the promise is fulfilled, nothing but a new start touches it. *)
Lemma step_fulfilled a s v :
  is_start a = false → started s = Some (Fulfilled v) →
  started (step a s).2 = Some (Fulfilled v) ∧ settlements_of (step a s).1 = [].
Proof.
  intros Hstart Hs.
  destruct (is_prepared a) eqn:Hprep.
  - destruct a as [| | | | | | | | | | |state]; try done.
    simpl in *. rewrite Hs. unfold onSync. by rewrite Hprep.
  - destruct (step_idle a s) as [-> ->]; done.
Qed.

Lemma run_fulfilled acts s v :
  Forall (λ a, is_start a = false) acts → started s = Some (Fulfilled v) →
  started (run acts s).2 = Some (Fulfilled v) ∧ settlements_of (run acts s).1 = [].
Proof.
  intros Hacts. revert s.
  induction Hacts as [|a acts Hstart _ IH]; intros s Hs; [done|].
  rewrite run_cons_state, run_cons_trace, settlements_of_app.
  destruct (step_fulfilled a s v) as [Hs' ->]; [done..|].
  destruct (IH (step a s).2) as [-> ->]; done.
Qed.

Lemma step_prepared_pending s :
  started s = Some Pending →
  started (step (EmitSync "PREPARED") s).2 = Some (Fulfilled VUndefined)
  ∧ settlements_of (step (EmitSync "PREPARED") s).1 = [Normal VUndefined].
Proof. intros Hs. simpl. by rewrite Hs. Qed.

(** C6. After a [startClient] that returned its promise, the promise stays
    pending through every action before the first [sync] event with state
    [PREPARED], is fulfilled by that event, and is never settled again by
    what follows, a second [PREPARED] included: one settlement, a
    fulfilment, in the whole trace. *)
Theorem start_promise_resolves_once (s : System) (env : Env)
    (pre post : list action) :
  result_of (startClient env (this s)) = Normal tt →
  Forall (λ a, is_start a = false ∧ is_prepared a = false) pre →
  Forall (λ a, is_start a = false) post →
  let s1 := (step (CallStartClient env) s).2 in
  started s1 = Some Pending
  ∧ (started (run pre s1).2 = Some Pending
     ∧ settlements_of (run pre s1).1 = [])
  ∧ (started (run (pre ++ [EmitSync "PREPARED"]) s1).2 = Some (Fulfilled VUndefined)
     ∧ settlements_of (run (pre ++ [EmitSync "PREPARED"]) s1).1 = [Normal VUndefined])
  ∧ (started (run (pre ++ EmitSync "PREPARED" :: post) s1).2
     = Some (Fulfilled VUndefined)
     ∧ settlements_of (run (pre ++ EmitSync "PREPARED" :: post) s1).1
       = [Normal VUndefined]).
Proof.
  intros Hok Hpre Hpost s1.
  assert (started s1 = Some Pending) as Hs1.
  { unfold s1, step, result_of in *.
    destruct (startClient env (this s)) as [[t p] [[]|e]]; simpl in *; done. }
  destruct (run_idle pre s1 Hpre) as [Hpre_s Hpre_t].
  rewrite Hs1 in Hpre_s.
  destruct (step_prepared_pending (run pre s1).2 Hpre_s) as [Hprep_s Hprep_t].
  assert (∀ rest, Forall (λ a, is_start a = false) rest →
            started (run (pre ++ EmitSync "PREPARED" :: rest) s1).2
            = Some (Fulfilled VUndefined)
            ∧ settlements_of (run (pre ++ EmitSync "PREPARED" :: rest) s1).1
              = [Normal VUndefined]) as Hrest.
  { intros rest Hrest.
    rewrite run_app_state, run_app_trace, settlements_of_app, Hpre_t.
    rewrite run_cons_state, run_cons_trace, settlements_of_app, Hprep_t.
    destruct (run_fulfilled rest _ VUndefined Hrest Hprep_s) as [-> ->]. done. }
  split; [done|]. split; [done|]. split; [by apply Hrest|by apply Hrest].
Qed.

(** ** Wrappers around the client *)

Lemma strict_equals_string_true v s :
  strict_equals_string v s = true ↔ v = VStr s.
Proof.
  destruct v; simpl; try (split; [done|intros [=]]).
  rewrite bool_decide_eq_true. split; [by intros ->|by intros [= ->]].
Qed.

Ltac unfold_method :=
  unfold try_catch, mbind, M_bind, bind, mret, M_ret, ret, throw, lift, call,
    log, perform, this_client, this_config, this_pathToConfig,
    trace_of, state_of, result_of.

(** C2. [joinRoom] has three outcomes: [undefined] when the join of the
    client succeeds; [true] when it fails with an error whose message is
    exactly [No known servers]; and, when it fails with any other message,
    [undefined] again after a warning, nothing being raised. *)
Theorem joinRoom_three_outcomes (p : Puppet) (mc : MatrixClient)
    (matrixRoomId : string) :
  client p = Some mc →
  (∀ v, client_joinRoom mc matrixRoomId = Normal v →
        joinRoom matrixRoomId p = ([JoinRoom matrixRoomId], p, Normal VUndefined))
  ∧ (∀ err, client_joinRoom mc matrixRoomId = Throw err →
        get_prop err "message" = Normal (VStr "No known servers") →
        joinRoom matrixRoomId p
        = ([JoinRoom matrixRoomId; Log LWarn [VStr no_known_servers_warning]],
           p, Normal (VBool true)))
  ∧ (∀ err message, client_joinRoom mc matrixRoomId = Throw err →
        get_prop err "message" = Normal message →
        message ≠ VStr "No known servers" →
        joinRoom matrixRoomId p
        = ([JoinRoom matrixRoomId;
            Log LWarn [VStr "ignoring error from puppet join room: "; message]],
           p, Normal VUndefined)).
Proof.
  intros Hmc. unfold joinRoom. unfold_method. rewrite Hmc. simpl.
  split; [|split].
  - by intros v ->.
  - intros err -> ->. done.
  - intros err message -> -> Hne.
    destruct (strict_equals_string message "No known servers") eqn:Heq; [|done].
    by apply strict_equals_string_true in Heq.
Qed.

(** C8. [getRoom] never raises; all it logs is at debug level; and when the
    lookup of the client fails, whatever the error, it returns [undefined]
    after the one debug line that says the room does not exist. *)
Theorem getRoom_swallows_failures (p : Puppet) (roomAlias : string) :
  (∃ roomId, result_of (getRoom roomAlias p) = Normal roomId)
  ∧ (∀ l args, (l, args) ∈ logs_of (trace_of (getRoom roomAlias p)) → l = LDebug)
  ∧ (∀ mc err,
       client p = Some mc →
       getRoomIdForAlias mc roomAlias = Throw err →
       getRoom roomAlias p
       = ([GetRoomIdForAlias roomAlias;
           Log LDebug
             [VStr "the room doesn't exist. we need to create it for the first time"]],
          p, Normal VUndefined)).
Proof.
  unfold getRoom. unfold_method.
  destruct (client p) as [mc|]; simpl.
  - destruct (getRoomIdForAlias mc roomAlias) as [response|err] eqn:Hlookup; simpl.
    + split; [by eexists|]. split; [|intros ?? [= <-] H; congruence].
      intros l args. rewrite list_elem_of_singleton. by intros [= -> _].
    + split; [by eexists|]. split; [|done].
      intros l args. rewrite list_elem_of_singleton. by intros [= -> _].
  - split; [by eexists|]. split; [|done].
    intros l args. rewrite list_elem_of_singleton. by intros [= -> _].
Qed.

(** ** invite *)

Lemma invite_each_started p mc matrixRoomId users :
  client p = Some mc →
  invite_each matrixRoomId users p
  = (Invite matrixRoomId <$> users, p,
     Normal (invite_promise mc matrixRoomId <$> users)).
Proof.
  intros Hmc. induction users as [|user rest IH]; [done|].
  simpl. unfold_method. rewrite Hmc. simpl.
  rewrite IH. simpl. by rewrite app_nil_r.
Qed.

Lemma invites_of_calls matrixRoomId users :
  invites_of (Invite matrixRoomId <$> users) = (λ u, (matrixRoomId, u)) <$> users.
Proof.
  induction users as [|user rest IH]; [done|].
  rewrite !fmap_cons. unfold invites_of in *. simpl. by f_equal.
Qed.

(** A slot still empty keeps the values from being collected. *)
Lemma collect_empty_slot slots i : slots !! i = Some None → collect slots = None.
Proof.
  revert i. induction slots as [|[v|] slots IH]; intros i Hi; [done| |done].
  destruct i as [|i]; [done|]. simpl in *. by rewrite (IH i).
Qed.

Lemma settle_invite_awaits matrixRoomId elements i el e j st :
  elements !! i = Some el → invite_outcome el = Throw e →
  awaits i st → awaits i (settle_invite matrixRoomId elements j st).2.
Proof.
  intros Hel Hout [Hslot Hnot]. unfold settle_invite.
  destruct (elements !! j) as [el'|] eqn:Hj; [|done].
  destruct (invite_outcome el') as [v|e'] eqn:Hout'.
  - assert (j ≠ i) as Hne by (intros ->; congruence).
    unfold all_resolve_element.
    destruct (all_values st !! j) as [[w|]|] eqn:Hslotj; simpl; [done| |done].
    assert (<[j := Some VUndefined]> (all_values st) !! i = Some None) as Hslot'.
    { by rewrite list_lookup_insert_ne. }
    rewrite (collect_empty_slot _ i Hslot'). simpl. done.
  - unfold all_reject, promise_reject.
    destruct (all_promise st) as [|v|e''] eqn:Hpr; simpl; (split; [done|]);
      simpl; [done|by destruct (Hnot v)|done].
Qed.

Lemma settle_invite_rejected matrixRoomId elements j st e :
  all_promise st = Rejected e →
  all_promise (settle_invite matrixRoomId elements j st).2 = Rejected e.
Proof.
  intros Hpr. unfold settle_invite.
  destruct (elements !! j) as [el|]; [|done].
  destruct (invite_outcome el) as [v|e'].
  - unfold all_resolve_element.
    destruct (all_values st !! j) as [[w|]|]; simpl; [done| |done].
    destruct (collect _); simpl; [|done].
    by rewrite Hpr.
  - unfold all_reject. by rewrite Hpr.
Qed.

Lemma settle_invites_rejected matrixRoomId elements schedule settled st e :
  all_promise st = Rejected e →
  all_promise (settle_invites matrixRoomId elements schedule settled st).2
  = Rejected e.
Proof.
  revert settled st.
  induction schedule as [|j rest IH]; intros settled st Hpr; [done|].
  simpl. case_bool_decide; [by apply IH|].
  pose proof (settle_invite_rejected matrixRoomId elements j st e Hpr) as Hj.
  destruct (settle_invite matrixRoomId elements j st) as [t st']. simpl in Hj.
  specialize (IH ({[j]} ∪ settled) st' Hj).
  by destruct (settle_invites matrixRoomId elements rest _ st') as [t' st''].
Qed.

Lemma settle_invites_awaits matrixRoomId elements i el e schedule settled st :
  elements !! i = Some el → invite_outcome el = Throw e →
  awaits i st →
  ∀ v, all_promise (settle_invites matrixRoomId elements schedule settled st).2
       ≠ Fulfilled v.
Proof.
  intros Hel Hout. revert settled st.
  induction schedule as [|j rest IH]; intros settled st Hst v; [by apply Hst|].
  simpl. case_bool_decide; [by apply IH|].
  pose proof (settle_invite_awaits matrixRoomId elements i el e j st Hel Hout Hst)
    as Hj.
  destruct (settle_invite matrixRoomId elements j st) as [t st']. simpl in Hj.
  specialize (IH ({[j]} ∪ settled) st' Hj v).
  by destruct (settle_invites matrixRoomId elements rest _ st') as [t' st''].
Qed.

Lemma settle_invites_rejects matrixRoomId elements i el e schedule settled st :
  elements !! i = Some el → invite_outcome el = Throw e →
  awaits i st → i ∈ schedule → i ∉ settled →
  ∃ e', all_promise (settle_invites matrixRoomId elements schedule settled st).2
        = Rejected e'.
Proof.
  intros Hel Hout. revert settled st.
  induction schedule as [|j rest IH]; intros settled st Hst Hin Hnew.
  { by apply elem_of_nil in Hin. }
  simpl. case_bool_decide as Hj.
  { apply IH; [done| |done]. apply elem_of_cons in Hin as [->|Hin]; done. }
  destruct (decide (j = i)) as [->|Hne].
  - assert (∃ e', all_promise (settle_invite matrixRoomId elements i st).2
                  = Rejected e') as [e' He'].
    { unfold settle_invite. rewrite Hel, Hout.
      unfold all_reject, promise_reject. destruct Hst as [_ Hnot].
      destruct (all_promise st) as [|v|e''] eqn:Hpr; simpl; eauto.
      by destruct (Hnot v). }
    destruct (settle_invite matrixRoomId elements i st) as [t st']. simpl in He'.
    pose proof (settle_invites_rejected matrixRoomId elements rest
                  ({[i]} ∪ settled) st' e' He') as Hrest.
    destruct (settle_invites matrixRoomId elements rest _ st') as [t' st''].
    by exists e'.
  - pose proof (settle_invite_awaits matrixRoomId elements i el e j st Hel Hout Hst)
      as Hawait.
    destruct (settle_invite matrixRoomId elements j st) as [t st']. simpl in Hawait.
    destruct (IH ({[j]} ∪ settled) st' Hawait) as [e' He'].
    { apply elem_of_cons in Hin as [->|Hin]; done. }
    { rewrite elem_of_union, elem_of_singleton. intros [->|Hi]; done. }
    destruct (settle_invites matrixRoomId elements rest _ st') as [t' st''].
    by exists e'.
Qed.

Lemma Promise_all_awaits n i : i < n → awaits i (Promise_all n).
Proof.
  intros Hi. split; simpl.
  - by apply lookup_replicate_2.
  - intros v. by destruct n; [lia|].
Qed.

(** C4. Started, [invite] with a list of users, a non-empty one in
    particular, calls the invite of the client once per user, in order, and
    hands back their aggregate; an invite that fails keeps the aggregate
    from ever being fulfilled, and once that failure has happened the
    aggregate is rejected, whatever the other invites did and in whatever
    order the promises settle. *)
Theorem invite_all_or_nothing (p : Puppet) (mc : MatrixClient)
    (matrixRoomId : string) (users : list string) :
  client p = Some mc →
  ∃ elements,
    invite matrixRoomId (Some users) p
    = (Log LInfo [VStr "Users to invite"; VArr (VStr <$> users)]
         :: (Invite matrixRoomId <$> users),
       p, Normal (ReturnPromiseAll elements))
    ∧ invites_of (trace_of (invite matrixRoomId (Some users) p))
      = (λ user, (matrixRoomId, user)) <$> users
    ∧ ∀ (i : nat) (user : string) (e : value) (schedule : list nat),
        users !! i = Some user →
        client_invite mc matrixRoomId user = Throw e →
        (∀ v, (invite_all matrixRoomId elements schedule).2 ≠ Fulfilled v)
        ∧ (i ∈ schedule →
           ∃ e', (invite_all matrixRoomId elements schedule).2 = Rejected e').
Proof.
  intros Hmc. exists (invite_promise mc matrixRoomId <$> users).
  assert (invite matrixRoomId (Some users) p
          = (Log LInfo [VStr "Users to invite"; VArr (VStr <$> users)]
               :: (Invite matrixRoomId <$> users),
             p, Normal (ReturnPromiseAll (invite_promise mc matrixRoomId <$> users))))
    as Hinvite.
  { unfold invite. unfold_method.
    rewrite (invite_each_started p mc matrixRoomId users Hmc).
    simpl. by rewrite app_nil_r. }
  split; [done|]. split.
  { rewrite Hinvite. unfold trace_of. simpl. apply invites_of_calls. }
  intros i user e schedule Hi Hfail.
  set (elements := invite_promise mc matrixRoomId <$> users).
  assert (elements !! i = Some (invite_promise mc matrixRoomId user)) as Hel.
  { unfold elements. by rewrite list_lookup_fmap, Hi. }
  assert (awaits i (Promise_all (length elements))) as Hstart.
  { apply Promise_all_awaits. by apply lookup_lt_Some in Hel. }
  unfold invite_all. split.
  - intros v.
    pose proof (settle_invites_awaits matrixRoomId elements i _ e schedule ∅ _
                  Hel Hfail Hstart v) as H.
    by destruct (settle_invites matrixRoomId elements schedule ∅ _).
  - intros Hin.
    destruct (settle_invites_rejects matrixRoomId elements i _ e schedule ∅ _
                Hel Hfail Hstart Hin) as [e' He']; [set_solver|].
    exists e'.
    by destruct (settle_invites matrixRoomId elements schedule ∅ _).
Qed.

(** C5, as the code has it. Without users to invite, [invite] calls no
    invite of the client and there is nothing to wait for: for an absent
    list it logs at debug level and returns [undefined]; for an empty list
    it logs at info level and returns an aggregate that is fulfilled from
    the start. *)
Theorem invite_nothing_to_do (p : Puppet) (matrixRoomId : string) :
  invite matrixRoomId None p
  = ([Log LDebug
        [VStr "All members in skype skypeRoom are already joined to Matrix room: ";
         VStr matrixRoomId]], p, Normal ReturnUndefined)
  ∧ invite matrixRoomId (Some []) p
    = ([Log LInfo [VStr "Users to invite"; VArr []]], p, Normal (ReturnPromiseAll []))
  ∧ invites_of (trace_of (invite matrixRoomId None p)) = []
  ∧ invites_of (trace_of (invite matrixRoomId (Some []) p)) = []
  ∧ ∀ schedule, invite_all matrixRoomId [] schedule = ([], Fulfilled (VArr [])).
Proof.
  repeat split.
  intros schedule. unfold invite_all.
  assert (∀ settled,
            settle_invites matrixRoomId [] schedule settled (Promise_all 0)
            = ([], Promise_all 0)) as H.
  { induction schedule as [|i rest IH]; intros settled; [done|].
    simpl. case_bool_decide; by rewrite IH. }
  by rewrite H.
Qed.

(** ** associate *)

(** C3. Once both prompts are answered, the second one for the account
    [@localpart:domain], the bridge section of the configuration is readable
    and the client is created: when the password login succeeds, [associate]
    writes once, to [pathToConfig], the serialisation of the held
    configuration with its [puppet] key set to the record of exactly [id]
    (the account), [localpart] (as typed) and [token] (the access token of
    the login), every other key as it was; when the login fails, it writes
    nothing and raises the error of the login. *)
Theorem associate_rewrites_only_puppet (env : Env) (p : Puppet)
    (localpart password : string) (domain homeserverUrl : value)
    (matrixClient : MatrixClient) :
  let bridge := default VUndefined (config p !! "bridge") in
  let id := "@" +:+ localpart +:+ ":" +:+ ToString domain in
  question env ("Enter your user's localpart" +:+ nl) false = Normal localpart →
  get_prop bridge "domain" = Normal domain →
  question env ("Enter password for " +:+ id +:+ nl) true = Normal password →
  get_prop bridge "homeserverUrl" = Normal homeserverUrl →
  createClient env homeserverUrl = Normal matrixClient →
  (∀ accessDat,
     loginWithPassword matrixClient id password = Normal accessDat →
     let puppet : gmap string value :=
       <["id" := VStr id]>
         (<["localpart" := VStr localpart]>
            (<["token" := access_token accessDat]> ∅)) in
     let written := <["puppet" := VObj puppet]> (config p) in
     writes_of (trace_of (associate env p))
     = [(pathToConfig p, JSON_stringify (VObj written) 2)]
     ∧ written !! "puppet" = Some (VObj puppet)
     ∧ puppet !! "id" = Some (VStr id)
     ∧ puppet !! "localpart" = Some (VStr localpart)
     ∧ puppet !! "token" = Some (access_token accessDat)
     ∧ dom puppet = {[ "id"; "localpart"; "token" ]}
     ∧ ∀ key, key ≠ "puppet" → written !! key = config p !! key)
  ∧ (∀ error,
       loginWithPassword matrixClient id password = Throw error →
       writes_of (trace_of (associate env p)) = []
       ∧ result_of (associate env p) = Throw error).
Proof.
  intros bridge id Hlocalpart Hdomain Hpassword Hurl Hclient.
  change ("Enter your user's localpart" +:+ nl) with localpart_query in Hlocalpart.
  change ("Enter password for " +:+ id +:+ nl)
    with (password_query (account_id localpart domain)) in Hpassword.
  change id with (account_id localpart domain).
  unfold associate. unfold_method. simpl.
  rewrite Hlocalpart. simpl.
  fold bridge. rewrite Hdomain. simpl.
  rewrite Hpassword. simpl.
  rewrite Hurl. simpl. rewrite Hclient. simpl.
  split.
  - intros accessDat ->. simpl.
    split; [by destruct (writeFile env _ _) as [[]|e]|].
    split; [apply lookup_insert_eq|].
    split; [apply lookup_insert_eq|].
    split; [by rewrite lookup_insert_ne, lookup_insert_eq by done|].
    split; [by do 2 (rewrite lookup_insert_ne by done); rewrite lookup_insert_eq|].
    split; [rewrite !dom_insert_L, dom_empty_L; set_solver|].
    intros key Hkey. by apply lookup_insert_ne.
  - by intros error ->.
Qed.

(** * Further properties of the code *)

#[local] Set Warnings "-clear-no-such-hyp".

(** ** startClient *)

Lemma get_prop_nullish v k : is_nullish v = true → ∃ e, get_prop v k = Throw e.
Proof. destruct v; try done; by eexists. Qed.

(** X1. Without a readable [bridge] or [puppet] section in the configuration,
    [startClient] raises before it calls anything: the trace is empty and
    [this] is as it was. *)
Theorem startClient_needs_config (env : Env) (p : Puppet) :
  is_nullish (default VUndefined (config p !! "bridge")) = true
  ∨ is_nullish (default VUndefined (config p !! "puppet")) = true →
  trace_of (startClient env p) = []
  ∧ state_of (startClient env p) = p
  ∧ ∃ e, result_of (startClient env p) = Throw e.
Proof.
  intros Hnull. unfold startClient. unfold_method. simpl.
  destruct (get_prop (default VUndefined (config p !! "bridge")) "homeserverUrl")
    as [baseUrl|e] eqn:Hbridge; simpl; [|by eauto].
  destruct Hnull as [Hnull|Hnull].
  { destruct (get_prop_nullish _ "homeserverUrl" Hnull) as [e He]. congruence. }
  destruct (get_prop_nullish _ "id" Hnull) as [e ->]. simpl. by eauto.
Qed.


(** X3. A [startClient] that completes has read the three settings of the
    configuration, asked the SDK for a client with exactly them, stored that
    client in [this.client], started it, and registered its two listeners, in
    this order. *)
Theorem startClient_success_installs_client (env : Env) (p : Puppet) :
  result_of (startClient env p) = Normal tt →
  ∃ baseUrl userId accessToken mc,
    get_prop (default VUndefined (config p !! "bridge")) "homeserverUrl"
    = Normal baseUrl
    ∧ get_prop (default VUndefined (config p !! "puppet")) "id" = Normal userId
    ∧ get_prop (default VUndefined (config p !! "puppet")) "token"
      = Normal accessToken
    ∧ createClient env (client_options baseUrl userId accessToken) = Normal mc
    ∧ client (state_of (startClient env p)) = Some mc
    ∧ trace_of (startClient env p)
      = [CreateClient (client_options baseUrl userId accessToken);
         StartClient; On "RoomState.members"; On "sync"].
Proof.
  unfold startClient. unfold_method. unfold set_client, set_matrixRoomMembers.
  simpl.
  destruct (get_prop (default VUndefined (config p !! "bridge")) "homeserverUrl")
    as [baseUrl|]; simpl; [|done].
  destruct (get_prop (default VUndefined (config p !! "puppet")) "id")
    as [userId|]; simpl; [|done].
  destruct (get_prop (default VUndefined (config p !! "puppet")) "token")
    as [accessToken|]; simpl; [|done].
  fold (client_options baseUrl userId accessToken).
  destruct (createClient env _) as [mc|] eqn:Hcreate; simpl; [|done].
  destruct (client_startClient mc) as [[]|]; simpl; [|done].
  intros _. by exists baseUrl, userId, accessToken, mc.
Qed.

Lemma startClient_config env p :
  config (state_of (startClient env p)) = config p
  ∧ pathToConfig (state_of (startClient env p)) = pathToConfig p.
Proof.
  unfold startClient. unfold_method. unfold set_client, set_matrixRoomMembers.
  simpl.
  destruct (get_prop (default VUndefined (config p !! "bridge")) "homeserverUrl");
    simpl; [|done].
  destruct (get_prop (default VUndefined (config p !! "puppet")) "id");
    simpl; [|done].
  destruct (get_prop (default VUndefined (config p !! "puppet")) "token");
    simpl; [|done].
  destruct (createClient env _) as [mc|]; simpl; [|done].
  by destruct (client_startClient mc) as [[]|].
Qed.

Lemma step_config a s :
  config (this (step a s).2) = config (this s)
  ∧ pathToConfig (this (step a s).2) = pathToConfig (this s).
Proof.
  destruct a as [env| | | | | | | | | |state|];
    try (by rewrite step_other_this).
  - pose proof (startClient_config env (this s)) as H.
    unfold step, state_of in *.
    by destruct (startClient env (this s)) as [[t p] [[]|e]].
  - simpl. by destruct (started s).
Qed.

(** X4. Nothing that happens to a session changes the configuration it
    holds or the path of its file: not a start, not an event, not
    [associate], which writes the file only. *)
Theorem config_is_never_changed (acts : list action) (s : System) :
  config (this (run acts s).2) = config (this s)
  ∧ pathToConfig (this (run acts s).2) = pathToConfig (this s).
Proof.
  revert s. induction acts as [|a acts IH]; intros s; [done|].
  rewrite run_cons_state.
  destruct (IH (step a s).2) as [-> ->]. apply step_config.
Qed.

(** ** joinRoom, getRoom and the other wrappers *)

Lemma get_prop_throws v k e : get_prop v k = Throw e → is_nullish v = true.
Proof. by destruct v. Qed.

Lemma get_prop_normal v k : is_nullish v = false → ∃ x, get_prop v k = Normal x.
Proof. destruct v; try done; by eexists. Qed.

(** X5. [joinRoom] raises in one case only: the join of the client was
    rejected with [undefined] or [null], so that reading the message of the
    error fails inside the handler. *)
Theorem joinRoom_raises_iff_nullish_rejection (p : Puppet) (matrixRoomId : string) :
  (∃ e, result_of (joinRoom matrixRoomId p) = Throw e)
  ↔ ∃ mc err,
      client p = Some mc
      ∧ client_joinRoom mc matrixRoomId = Throw err
      ∧ is_nullish err = true.
Proof.
  unfold joinRoom. unfold_method.
  destruct (client p) as [mc|] eqn:Hmc; simpl.
  - destruct (client_joinRoom mc matrixRoomId) as [v|err] eqn:Hjoin; simpl.
    + split; [by intros [e ?]|]. intros (mc' & err & [= <-] & Herr & _). congruence.
    + destruct (get_prop err "message") as [message|e] eqn:Hmessage; simpl.
      * split.
        { intros [e He].
          by destruct (strict_equals_string message "No known servers"). }
        intros (mc' & err' & [= <-] & Herr & Hnull).
        rewrite Hjoin in Herr. injection Herr as <-.
        destruct (get_prop_nullish err "message" Hnull) as [e He]. congruence.
      * split; [|by eauto].
        intros _. exists mc, err. repeat split; [done|].
        by apply get_prop_throws in Hmessage.
  - split; [by intros [e ?]|]. by intros (mc & err & ? & _).
Qed.

(** X6. [joinRoom] returns [true] exactly when the join of the client was
    rejected with an error whose message is the string [No known servers]. *)
Theorem joinRoom_true_iff (p : Puppet) (matrixRoomId : string) :
  result_of (joinRoom matrixRoomId p) = Normal (VBool true)
  ↔ ∃ mc err,
      client p = Some mc
      ∧ client_joinRoom mc matrixRoomId = Throw err
      ∧ get_prop err "message" = Normal (VStr "No known servers").
Proof.
  unfold joinRoom. unfold_method.
  destruct (client p) as [mc|] eqn:Hmc; simpl.
  - destruct (client_joinRoom mc matrixRoomId) as [v|err] eqn:Hjoin; simpl.
    + split; [done|]. intros (mc' & err & [= <-] & Herr & _). congruence.
    + destruct (get_prop err "message") as [message|e] eqn:Hmessage; simpl.
      * destruct (strict_equals_string message "No known servers") eqn:Heq; simpl.
        { apply strict_equals_string_true in Heq as ->.
          split; [|done]. intros _. by exists mc, err. }
        split; [done|].
        intros (mc' & err' & [= <-] & Herr & Hmsg).
        rewrite Hjoin in Herr. injection Herr as <-.
        rewrite Hmessage in Hmsg. injection Hmsg as ->.
        by rewrite (proj2 (strict_equals_string_true _ _) eq_refl) in Heq.
      * split; [done|].
        intros (mc' & err' & [= <-] & Herr & Hmsg).
        rewrite Hjoin in Herr. injection Herr as <-. congruence.
  - split; [done|]. by intros (mc & err & ? & _).
Qed.

(** X7. Before any client is there, [joinRoom] and [getRoom] do not raise:
    the [TypeError] of reading [this.client] is caught like a failure of the
    client, so [joinRoom] warns with the message of that error, whatever its
    text, [getRoom] logs its debug line, both return [undefined], and no
    call reaches a client. *)
Theorem unstarted_joinRoom_getRoom_swallow (p : Puppet) (name : string) :
  client p = None →
  (∃ message,
     joinRoom name p
     = ([Log LWarn [VStr "ignoring error from puppet join room: "; message]],
        p, Normal VUndefined))
  ∧ getRoom name p
    = ([Log LDebug
          [VStr "the room doesn't exist. we need to create it for the first time"]],
       p, Normal VUndefined).
Proof.
  intros Hmc. unfold joinRoom, getRoom. unfold_method. rewrite Hmc.
  split; [by eexists|done].
Qed.

(** X8. Before any client is there, [getUserId], [getRoomAliases],
    [getHttpUrl] and an [invite] of at least one user raise an error named
    [TypeError] without a call to a client, [invite] after its info line;
    an [invite] of no user still completes. *)
Theorem unstarted_calls_raise (p : Puppet) (name user : string)
    (rest : list string) :
  client p = None →
  (∃ e, getUserId p = ([], p, Throw e)
        ∧ get_prop e "name" = Normal (VStr "TypeError"))
  ∧ (∃ e, getRoomAliases name p = ([], p, Throw e)
          ∧ get_prop e "name" = Normal (VStr "TypeError"))
  ∧ (∃ e, getHttpUrl name p = ([], p, Throw e)
          ∧ get_prop e "name" = Normal (VStr "TypeError"))
  ∧ (∃ e, invite name (Some (user :: rest)) p
          = ([Log LInfo [VStr "Users to invite"; VArr (VStr <$> user :: rest)]],
             p, Throw e)
          ∧ get_prop e "name" = Normal (VStr "TypeError"))
  ∧ invite name (Some []) p
    = ([Log LInfo [VStr "Users to invite"; VArr []]], p,
       Normal (ReturnPromiseAll [])).
Proof.
  intros Hmc.
  unfold getUserId, getRoomAliases, getHttpUrl, invite. simpl.
  unfold_method. rewrite Hmc.
  repeat split; by eexists.
Qed.

(** X9. Started, [getRoomAliases] answers with the aliases of a room the
    client knows under that identifier, the first such room of its list; it
    answers with nothing exactly when the client knows no such room. *)
Theorem getRoomAliases_known_room (p : Puppet) (mc : MatrixClient)
    (matrixRoomId : string) :
  client p = Some mc →
  (result_of (getRoomAliases matrixRoomId p) = Normal None
   ↔ ∀ room, room ∈ getRooms mc → room_roomId room ≠ matrixRoomId)
  ∧ (∀ aliases,
       result_of (getRoomAliases matrixRoomId p) = Normal (Some aliases) →
       ∃ before room after,
         getRooms mc = before ++ room :: after
         ∧ room_roomId room = matrixRoomId
         ∧ room_getAliases room = aliases
         ∧ ∀ other, other ∈ before → room_roomId other ≠ matrixRoomId).
Proof.
  intros Hmc. unfold getRoomAliases. unfold_method. rewrite Hmc. simpl.
  induction (getRooms mc) as [|room rooms [IHnone IHsome]]; simpl.
  { split; [split; [by intros _ room ?%elem_of_nil|done]|done]. }
  case_bool_decide as Hroom; simpl.
  - split.
    + split; [done|]. intros Hnone. destruct (Hnone room); [left|done].
    + intros aliases [= <-]. exists [], room, rooms.
      repeat split; [done|]. by intros other ?%elem_of_nil.
  - split.
    + rewrite IHnone. split.
      * intros Hnone other [->|Hin]%elem_of_cons; [done|by apply Hnone].
      * intros Hnone other Hin. apply Hnone. by right.
    + intros aliases Hsome.
      destruct (IHsome aliases Hsome) as (before & found & after & -> & ? & ? & Hbefore).
      exists (room :: before), found, after. repeat split; [done..|].
      intros other [->|Hin]%elem_of_cons; [done|by apply Hbefore].
Qed.

(** X10. A result of [getRoom] other than [undefined] is the [room_id] the
    client resolved the alias to; and [getRoom] asks the client at most once,
    for that alias. *)
Theorem getRoom_defined_result (p : Puppet) (roomAlias : string) :
  (∀ roomId,
     result_of (getRoom roomAlias p) = Normal roomId →
     roomId ≠ VUndefined →
     ∃ mc response,
       client p = Some mc
       ∧ getRoomIdForAlias mc roomAlias = Normal response
       ∧ room_id response = roomId)
  ∧ (lookups_of (trace_of (getRoom roomAlias p)) = []
     ∨ lookups_of (trace_of (getRoom roomAlias p)) = [roomAlias]).
Proof.
  unfold getRoom. unfold_method.
  destruct (client p) as [mc|]; simpl.
  - destruct (getRoomIdForAlias mc roomAlias) as [response|err] eqn:Hlookup; simpl.
    + split; [|by right]. intros roomId [= <-] _. by exists mc, response.
    + split; [|by right]. by intros roomId [= <-].
  - split; [|by left]. by intros roomId [= <-].
Qed.

(** ** The aggregate of invite *)

Lemma slots_of_lookup settled n i :
  i < n →
  slots_of settled n !! i
  = Some (if bool_decide (i ∈ settled) then Some VUndefined else None).
Proof.
  intros Hi. unfold slots_of.
  by rewrite list_lookup_fmap, lookup_seq_lt.
Qed.

Lemma slots_of_length settled n : length (slots_of settled n) = n.
Proof. unfold slots_of. by rewrite length_fmap, length_seq. Qed.

Lemma slots_of_empty n : slots_of ∅ n = replicate n None.
Proof.
  apply list_eq. intros i.
  destruct (decide (i < n)) as [Hi|Hi].
  - rewrite slots_of_lookup by done. by rewrite lookup_replicate_2.
  - rewrite !lookup_ge_None_2; [done|rewrite length_replicate; lia|].
    rewrite slots_of_length. lia.
Qed.

Lemma slots_of_insert settled n i :
  <[i := Some VUndefined]> (slots_of settled n) = slots_of ({[i]} ∪ settled) n.
Proof.
  apply list_eq. intros j.
  destruct (decide (j < n)) as [Hj|Hj].
  - rewrite (slots_of_lookup _ n j) by done.
    destruct (decide (i = j)) as [->|Hne].
    + rewrite list_lookup_insert_eq by (rewrite slots_of_length; lia).
      rewrite bool_decide_eq_true_2; [done|set_solver].
    + rewrite list_lookup_insert_ne, slots_of_lookup by done.
      by rewrite (bool_decide_ext (j ∈ settled) (j ∈ {[i]} ∪ settled))
        by set_solver.
  - rewrite !lookup_ge_None_2; [done|rewrite slots_of_length; lia|].
    rewrite length_insert, slots_of_length. lia.
Qed.

Lemma slots_of_out_of_range settled n i :
  n ≤ i → slots_of ({[i]} ∪ settled) n = slots_of settled n.
Proof.
  intros Hi. rewrite <-slots_of_insert.
  apply list_insert_ge. rewrite slots_of_length. lia.
Qed.

Lemma collect_full n v : collect (replicate n (Some v)) = Some (replicate n v).
Proof. induction n as [|n IH]; [done|]. simpl. by rewrite IH. Qed.

Lemma collect_slots_all settled n :
  (∀ i, i < n → i ∈ settled) →
  collect (slots_of settled n) = Some (replicate n VUndefined).
Proof.
  intros Hall. rewrite <-collect_full. f_equal.
  apply list_eq. intros i.
  destruct (decide (i < n)) as [Hi|Hi].
  - rewrite slots_of_lookup, lookup_replicate_2 by done.
    by rewrite bool_decide_eq_true_2 by auto.
  - rewrite !lookup_ge_None_2; [done|rewrite length_replicate; lia|].
    rewrite slots_of_length. lia.
Qed.

Lemma collect_slots_missing settled n i :
  i < n → i ∉ settled → collect (slots_of settled n) = None.
Proof.
  intros Hi Hnot. apply (collect_empty_slot _ i).
  rewrite slots_of_lookup by done. by rewrite bool_decide_eq_false_2.
Qed.

(** The aggregate of invites that all succeed, after those of [settled]. *)
Lemma settle_invite_success matrixRoomId elements settled i st :
  Forall (λ el, ∃ v, invite_outcome el = Normal v) elements →
  i ∉ settled →
  all_values st = slots_of settled (length elements) →
  all_promise st
  = match collect (slots_of settled (length elements)) with
    | Some vs => Fulfilled (VArr vs)
    | None => Pending
    end →
  let st' := (settle_invite matrixRoomId elements i st).2 in
  all_values st' = slots_of ({[i]} ∪ settled) (length elements)
  ∧ all_promise st'
    = match collect (slots_of ({[i]} ∪ settled) (length elements)) with
      | Some vs => Fulfilled (VArr vs)
      | None => Pending
      end.
Proof.
  intros Hok Hnew Hslots Hpromise. unfold settle_invite.
  destruct (elements !! i) as [el|] eqn:Hel; simpl.
  - assert (i < length elements) as Hi by by apply lookup_lt_Some in Hel.
    rewrite Forall_lookup in Hok. destruct (Hok i el Hel) as [v ->].
    unfold all_resolve_element.
    rewrite Hslots, slots_of_lookup, bool_decide_eq_false_2 by done.
    rewrite slots_of_insert.
    rewrite (collect_slots_missing settled _ i) in Hpromise by done.
    destruct (collect (slots_of ({[i]} ∪ settled) (length elements))) as [vs|];
      simpl; [|done].
    by rewrite Hpromise.
  - apply lookup_ge_None in Hel.
    by rewrite slots_of_out_of_range.
Qed.

Lemma settle_invites_success matrixRoomId elements schedule settled st :
  Forall (λ el, ∃ v, invite_outcome el = Normal v) elements →
  all_values st = slots_of settled (length elements) →
  all_promise st
  = match collect (slots_of settled (length elements)) with
    | Some vs => Fulfilled (VArr vs)
    | None => Pending
    end →
  all_promise (settle_invites matrixRoomId elements schedule settled st).2
  = match collect (slots_of (list_to_set schedule ∪ settled) (length elements)) with
    | Some vs => Fulfilled (VArr vs)
    | None => Pending
    end.
Proof.
  intros Hok. revert settled st.
  induction schedule as [|i rest IH]; intros settled st Hslots Hpromise.
  { simpl. by rewrite (left_id_L ∅ (∪)). }
  simpl. case_bool_decide as Hi.
  - rewrite (IH settled st) by done.
    replace ({[i]} ∪ list_to_set rest ∪ settled)
      with (list_to_set rest ∪ settled : gset nat) by set_solver.
    done.
  - destruct (settle_invite_success matrixRoomId elements settled i st
                Hok Hi Hslots Hpromise) as [Hslots' Hpromise'].
    destruct (settle_invite matrixRoomId elements i st) as [t st']. simpl in *.
    specialize (IH ({[i]} ∪ settled) st' Hslots' Hpromise').
    destruct (settle_invites matrixRoomId elements rest _ st') as [t' st''].
    simpl in *. rewrite IH.
    replace ({[i]} ∪ list_to_set rest ∪ settled)
      with (list_to_set rest ∪ ({[i]} ∪ settled) : gset nat) by set_solver.
    done.
Qed.

(** X11. When every invite succeeds, the aggregate of [invite] is fulfilled,
    with one result per user, as soon as all the invites have settled, in
    whatever order; while one of them has not, it is pending. *)
Theorem invite_fulfilled_when_all_settled (matrixRoomId : string)
    (elements : list InvitePromise) (schedule : list nat) :
  Forall (λ el, ∃ v, invite_outcome el = Normal v) elements →
  ((∀ i, i < length elements → i ∈ schedule) →
   ∃ results,
     (invite_all matrixRoomId elements schedule).2 = Fulfilled (VArr results)
     ∧ length results = length elements)
  ∧ (∀ i, i < length elements → i ∉ schedule →
     (invite_all matrixRoomId elements schedule).2 = Pending).
Proof.
  intros Hok.
  pose proof (settle_invites_success matrixRoomId elements schedule ∅
                (Promise_all (length elements)) Hok) as Hfinal.
  unfold invite_all.
  destruct (settle_invites matrixRoomId elements schedule ∅ _) as [t st].
  simpl in *. rewrite Hfinal.
  - split.
    + intros Hall. rewrite collect_slots_all.
      * eexists. split; [done|]. apply length_replicate.
      * intros i Hi. specialize (Hall i Hi). set_solver.
    + intros i Hi Hnot. rewrite (collect_slots_missing _ _ i); [done..|].
      set_solver.
  - simpl. by rewrite slots_of_empty.
  - simpl. rewrite slots_of_empty.
    destruct (length elements); [done|]. done.
Qed.

Lemma first_failure_exists elements schedule e :
  first_failure elements schedule = Some e →
  ∃ k el, elements !! k = Some el ∧ invite_outcome el = Throw e.
Proof.
  induction schedule as [|i rest IH]; [done|]. simpl.
  destruct (elements !! i) as [el|] eqn:Hel; simpl; [|done].
  destruct (invite_outcome el) as [v|e'] eqn:Hout; [done|].
  intros [= <-]. by exists i, el.
Qed.

(** While no failing invite has settled: the aggregate is pending and the
    slot of each failing invite is empty. *)
Lemma settle_invites_first_failure matrixRoomId elements schedule settled st e :
  all_promise st = Pending →
  (∀ k el e', elements !! k = Some el → invite_outcome el = Throw e' →
              all_values st !! k = Some None ∧ k ∉ settled) →
  first_failure elements schedule = Some e →
  all_promise (settle_invites matrixRoomId elements schedule settled st).2
  = Rejected e.
Proof.
  revert settled st.
  induction schedule as [|j rest IH]; intros settled st Hpending Hinv Hfirst;
    [done|].
  simpl in *.
  destruct (elements !! j) as [el|] eqn:Hel; simpl in Hfirst.
  - destruct (invite_outcome el) as [v|e0] eqn:Hout.
    + case_bool_decide as Hj; [by apply IH|].
      destruct (first_failure_exists _ _ _ Hfirst) as (k & elk & Hk & Hkout).
      destruct (Hinv k elk e Hk Hkout) as [Hslot _].
      assert (k ≠ j) as Hne by (intros ->; congruence).
      assert (∃ st', (settle_invite matrixRoomId elements j st).2 = st'
                     ∧ all_promise st' = Pending
                     ∧ ∀ k' el' e', elements !! k' = Some el' →
                         invite_outcome el' = Throw e' →
                         all_values st' !! k' = Some None ∧ k' ∉ {[j]} ∪ settled)
        as (st' & Hst' & Hpending' & Hinv').
      { unfold settle_invite. rewrite Hel, Hout. unfold all_resolve_element.
        destruct (all_values st !! j) as [[w|]|] eqn:Hslotj; simpl.
        - eexists. split; [done|]. split; [done|].
          intros k' el' e' Hk' Hout'. destruct (Hinv k' el' e' Hk' Hout') as [? ?].
          split; [done|]. assert (k' ≠ j) by (intros ->; congruence). set_solver.
        - rewrite (collect_empty_slot _ k) by by rewrite list_lookup_insert_ne.
          eexists. split; [done|]. split; [done|]. simpl.
          intros k' el' e' Hk' Hout'. destruct (Hinv k' el' e' Hk' Hout') as [? ?].
          assert (k' ≠ j) by (intros ->; congruence).
          rewrite list_lookup_insert_ne by done. split; [done|set_solver].
        - eexists. split; [done|]. split; [done|].
          intros k' el' e' Hk' Hout'. destruct (Hinv k' el' e' Hk' Hout') as [? ?].
          split; [done|]. assert (k' ≠ j) by (intros ->; congruence). set_solver. }
      destruct (settle_invite matrixRoomId elements j st) as [t st0].
      simpl in Hst'. subst st0.
      specialize (IH ({[j]} ∪ settled) st' Hpending' Hinv' Hfirst).
      by destruct (settle_invites matrixRoomId elements rest _ st') as [t' st''].
    + injection Hfirst as ->.
      destruct (Hinv j el e Hel Hout) as [_ Hj].
      rewrite bool_decide_eq_false_2 by done.
      assert (all_promise (settle_invite matrixRoomId elements j st).2 = Rejected e)
        as Hrejected.
      { unfold settle_invite. rewrite Hel, Hout. unfold all_reject.
        by rewrite Hpending. }
      destruct (settle_invite matrixRoomId elements j st) as [t st'].
      pose proof (settle_invites_rejected matrixRoomId elements rest
                    ({[j]} ∪ settled) st' e Hrejected) as Hrest.
      by destruct (settle_invites matrixRoomId elements rest _ st') as [t' st''].
  - case_bool_decide as Hj; [by apply IH|].
    unfold settle_invite. rewrite Hel.
    assert (∀ k' el' e', elements !! k' = Some el' →
              invite_outcome el' = Throw e' →
              all_values st !! k' = Some None ∧ k' ∉ {[j]} ∪ settled) as Hinv'.
    { intros k' el' e' Hk' Hout'. destruct (Hinv k' el' e' Hk' Hout') as [? ?].
      split; [done|]. assert (k' ≠ j) by (intros ->; congruence). set_solver. }
    specialize (IH ({[j]} ∪ settled) st Hpending Hinv' Hfirst).
    by destruct (settle_invites matrixRoomId elements rest _ st) as [t' st''].
Qed.

Lemma settle_invites_no_failure matrixRoomId elements schedule settled st :
  (∀ e, all_promise st ≠ Rejected e) →
  first_failure elements schedule = None →
  ∀ e, all_promise (settle_invites matrixRoomId elements schedule settled st).2
       ≠ Rejected e.
Proof.
  revert settled st.
  induction schedule as [|j rest IH]; intros settled st Hnot Hfirst e;
    [by apply Hnot|].
  simpl in *. case_bool_decide as Hj.
  { apply IH; [done|].
    destruct (invite_outcome <$> elements !! j) as [[v|e']|]; done. }
  assert (∀ e', all_promise (settle_invite matrixRoomId elements j st).2
                ≠ Rejected e') as Hnot'.
  { unfold settle_invite.
    destruct (elements !! j) as [el|]; simpl in *; [|done].
    destruct (invite_outcome el) as [v|e']; [|done].
    unfold all_resolve_element.
    destruct (all_values st !! j) as [[w|]|]; simpl; [done| |done].
    destruct (collect _); simpl; [|done].
    unfold promise_resolve. by destruct (all_promise st) eqn:Hpr. }
  assert (first_failure elements rest = None) as Hrest.
  { destruct (invite_outcome <$> elements !! j) as [[v|e']|]; done. }
  destruct (settle_invite matrixRoomId elements j st) as [t st'].
  specialize (IH ({[j]} ∪ settled) st' Hnot' Hrest e).
  by destruct (settle_invites matrixRoomId elements rest _ st') as [t' st''].
Qed.

(** X12. The aggregate of [invite] is rejected exactly when an invite that
    has settled failed, and then with the reason of the first failure to
    settle; the invites that succeed before or after do not change it. *)
Theorem invite_rejects_with_first_failure (matrixRoomId : string)
    (elements : list InvitePromise) (schedule : list nat) :
  match first_failure elements schedule with
  | Some e => (invite_all matrixRoomId elements schedule).2 = Rejected e
  | None => ∀ e, (invite_all matrixRoomId elements schedule).2 ≠ Rejected e
  end.
Proof.
  unfold invite_all.
  destruct (first_failure elements schedule) as [e|] eqn:Hfirst.
  - destruct (first_failure_exists _ _ _ Hfirst) as (k & el & Hk & _).
    pose proof (settle_invites_first_failure matrixRoomId elements schedule ∅
                  (Promise_all (length elements)) e) as Hfinal.
    destruct (settle_invites matrixRoomId elements schedule ∅ _) as [t st].
    apply Hfinal; [|  |done].
    + simpl. apply lookup_lt_Some in Hk. by destruct (length elements); [lia|].
    + intros k' el' e' Hk' _. split; [|set_solver]. simpl.
      apply lookup_replicate_2. by apply lookup_lt_Some in Hk'.
  - intros e.
    pose proof (settle_invites_no_failure matrixRoomId elements schedule ∅
                  (Promise_all (length elements))) as Hfinal.
    destruct (settle_invites matrixRoomId elements schedule ∅ _) as [t st].
    apply Hfinal; [|done]. simpl. by destruct (length elements).
Qed.

(** A settlement of one invite settles the aggregate at most once, and only
    while it is pending. *)
Lemma settle_invite_settles matrixRoomId elements i st :
  (all_promise (settle_invite matrixRoomId elements i st).2 = all_promise st
   ∧ settlements_of (settle_invite matrixRoomId elements i st).1 = [])
  ∨ (all_promise st = Pending
     ∧ ∃ c, settlements_of (settle_invite matrixRoomId elements i st).1 = [c]
            ∧ all_promise (settle_invite matrixRoomId elements i st).2
              = promise_of c).
Proof.
  unfold settle_invite.
  destruct (elements !! i) as [el|]; [|by left].
  destruct (invite_outcome el) as [v|e].
  - unfold all_resolve_element.
    destruct (all_values st !! i) as [[w|]|]; simpl; [by left| |by left].
    destruct (collect _) as [vs|]; simpl; [|by left].
    destruct (all_promise st) eqn:Hpr; simpl; [|by left..].
    right. split; [done|]. by eexists.
  - unfold all_reject.
    destruct (all_promise st) eqn:Hpr; simpl; [|by left..].
    right. split; [done|]. by eexists.
Qed.

Lemma settle_invites_settled matrixRoomId elements schedule settled st :
  all_promise st ≠ Pending →
  all_promise (settle_invites matrixRoomId elements schedule settled st).2
  = all_promise st
  ∧ settlements_of (settle_invites matrixRoomId elements schedule settled st).1 = [].
Proof.
  revert settled st.
  induction schedule as [|i rest IH]; intros settled st Hst; [done|].
  simpl. case_bool_decide; [by apply IH|].
  destruct (settle_invite_settles matrixRoomId elements i st)
    as [[Hsame Hnone]|[Hpending _]]; [|done].
  destruct (settle_invite matrixRoomId elements i st) as [t st']. simpl in *.
  destruct (IH ({[i]} ∪ settled) st') as [Hrest Hrest_t]; [congruence|].
  destruct (settle_invites matrixRoomId elements rest _ st') as [t' st''].
  simpl in *. rewrite settlements_of_app, Hnone, Hrest_t. split; [congruence|done].
Qed.

Lemma settle_invites_pending matrixRoomId elements schedule settled st :
  all_promise st = Pending →
  (all_promise (settle_invites matrixRoomId elements schedule settled st).2 = Pending
   ∧ settlements_of (settle_invites matrixRoomId elements schedule settled st).1 = [])
  ∨ ∃ c,
      settlements_of (settle_invites matrixRoomId elements schedule settled st).1 = [c]
      ∧ all_promise (settle_invites matrixRoomId elements schedule settled st).2
        = promise_of c.
Proof.
  revert settled st.
  induction schedule as [|i rest IH]; intros settled st Hst; [by left|].
  simpl. case_bool_decide; [by apply IH|].
  destruct (settle_invite_settles matrixRoomId elements i st)
    as [[Hsame Hnone]|[_ (c & Hone & Hc)]].
  - destruct (settle_invite matrixRoomId elements i st) as [t st']. simpl in *.
    destruct (IH ({[i]} ∪ settled) st') as [[Hrest Hrest_t]|(c & Hrest_t & Hrest)];
      [congruence| |];
      destruct (settle_invites matrixRoomId elements rest _ st') as [t' st''];
      simpl in *; rewrite settlements_of_app, Hnone, Hrest_t.
    + by left.
    + right. by exists c.
  - destruct (settle_invite matrixRoomId elements i st) as [t st']. simpl in *.
    destruct (settle_invites_settled matrixRoomId elements rest
                ({[i]} ∪ settled) st') as [Hrest Hrest_t].
    { rewrite Hc. by destruct c. }
    destruct (settle_invites matrixRoomId elements rest _ st') as [t' st''].
    simpl in *. rewrite settlements_of_app, Hone, Hrest_t.
    right. exists c. split; [done|congruence].
Qed.

(** X13. The aggregate of [invite] settles at most once, however many
    invites fail or succeed: either nothing has settled it and it is as
    [Promise.all] made it, or one settlement has, and it is what that
    settlement made it. *)
Theorem invite_settles_at_most_once (matrixRoomId : string)
    (elements : list InvitePromise) (schedule : list nat) :
  (settlements_of (invite_all matrixRoomId elements schedule).1 = []
   ∧ (invite_all matrixRoomId elements schedule).2
     = all_promise (Promise_all (length elements)))
  ∨ ∃ c,
      settlements_of (invite_all matrixRoomId elements schedule).1 = [c]
      ∧ (invite_all matrixRoomId elements schedule).2 = promise_of c
      ∧ elements ≠ [].
Proof.
  unfold invite_all.
  destruct elements as [|el elements].
  - left.
    destruct (settle_invites_settled matrixRoomId [] schedule ∅ (Promise_all 0))
      as [Hsame Hnone]; [done|].
    by destruct (settle_invites matrixRoomId [] schedule ∅ _) as [t st].
  - destruct (settle_invites_pending matrixRoomId (el :: elements) schedule ∅
                (Promise_all (length (el :: elements))))
      as [[Hpending Hnone]|(c & Hone & Hc)]; [done| |];
      destruct (settle_invites matrixRoomId (el :: elements) schedule ∅ _)
        as [t st]; simpl in *.
    + by left.
    + right. by exists c.
Qed.

Lemma invited_of_app t t' : invited_of (t ++ t') = invited_of t ++ invited_of t'.
Proof. apply omap_app. Qed.

Lemma invited_of_settle_invite matrixRoomId elements i st :
  invited_of (settle_invite matrixRoomId elements i st).1
  = match elements !! i with
    | Some el =>
        match invite_outcome el with
        | Normal _ => [invite_user el]
        | Throw _ => []
        end
    | None => []
    end.
Proof.
  unfold settle_invite.
  destruct (elements !! i) as [el|]; [|done].
  destruct (invite_outcome el) as [v|e].
  - unfold all_resolve_element.
    destruct (all_values st !! i) as [[w|]|]; simpl; try done.
    destruct (collect _); simpl; [|done].
    by destruct (all_promise st).
  - unfold all_reject. by destruct (all_promise st).
Qed.

Lemma invited_of_settle_invites matrixRoomId elements schedule settled st user :
  user ∈ invited_of (settle_invites matrixRoomId elements schedule settled st).1
  ↔ ∃ i el v,
      i ∈ schedule ∧ (i ∉ settled)
      ∧ elements !! i = Some el
      ∧ invite_outcome el = Normal v
      ∧ invite_user el = user.
Proof.
  revert settled st.
  induction schedule as [|j rest IH]; intros settled st.
  { simpl. split; [by intros ?%elem_of_nil|].
    by intros (i & el & v & ?%elem_of_nil & _). }
  simpl. case_bool_decide as Hj.
  - rewrite IH. split.
    + intros (i & el & v & Hin & Hnew & Hrest). exists i, el, v.
      split; [by right|done].
    + intros (i & el & v & [->|Hin]%elem_of_cons & Hnew & Hrest); [done|].
      by exists i, el, v.
  - pose proof (invited_of_settle_invite matrixRoomId elements j st) as Hhead.
    destruct (settle_invite matrixRoomId elements j st) as [t st']. simpl in Hhead.
    specialize (IH ({[j]} ∪ settled) st').
    destruct (settle_invites matrixRoomId elements rest _ st') as [t' st''].
    simpl in *. rewrite invited_of_app, elem_of_app, Hhead, IH. split.
    + intros [Hnow|(i & el & v & Hin & Hnew & Hrest)].
      * destruct (elements !! j) as [el|] eqn:Hel; [|by apply elem_of_nil in Hnow].
        destruct (invite_outcome el) as [v|e] eqn:Hout;
          [|by apply elem_of_nil in Hnow].
        apply list_elem_of_singleton in Hnow as ->.
        exists j, el, v. split; [by left|done].
      * exists i, el, v. split; [by right|]. split; [set_solver|done].
    + intros (i & el & v & [->|Hin]%elem_of_cons & Hnew & Hel & Hout & Huser).
      * left. rewrite Hel, Hout, Huser. by left.
      * destruct (decide (i = j)) as [->|Hne].
        { left. rewrite Hel, Hout, Huser. by left. }
        right. exists i, el, v. split; [done|]. split; [set_solver|done].
Qed.

(** X14. The users logged as invited are exactly the users of the invites
    that settled with success: each such invite is logged, also after the
    aggregate has been rejected, and no invite that failed or is still
    pending is. *)
Theorem invite_logs_every_success (matrixRoomId : string)
    (elements : list InvitePromise) (schedule : list nat) (user : string) :
  user ∈ invited_of (invite_all matrixRoomId elements schedule).1
  ↔ ∃ i el v,
      i ∈ schedule
      ∧ elements !! i = Some el
      ∧ invite_outcome el = Normal v
      ∧ invite_user el = user.
Proof.
  unfold invite_all.
  pose proof (invited_of_settle_invites matrixRoomId elements schedule ∅
                (Promise_all (length elements)) user) as H.
  destruct (settle_invites matrixRoomId elements schedule ∅ _) as [t st].
  simpl in *. rewrite H. split.
  - intros (i & el & v & ? & _ & ?). by exists i, el, v.
  - intros (i & el & v & ? & ?). exists i, el, v. split; [done|]. split; [set_solver|done].
Qed.

(** ** associate and the object *)

(** X15. [associate] writes the file and nothing else: [this], its
    configuration and its client included, is as before, whether the login
    worked or not; so a [startClient] after it does what it would have done
    before it. *)
Theorem associate_leaves_this (env env' : Env) (p : Puppet) :
  state_of (associate env p) = p
  ∧ startClient env' (state_of (associate env p)) = startClient env' p.
Proof.
  destruct (keeps_associate env p) as [Hp _]. by rewrite Hp.
Qed.

(** X16. [associate] calls [writeFile] at most once and always on
    [pathToConfig]. It completes only if that write was made and succeeded;
    when it raises, the last thing it did was to log the error it raises,
    and a write, if one was made, is the call that failed with this
    error. *)
Theorem associate_writes_at_most_once (env : Env) (p : Puppet) :
  (result_of (associate env p) = Normal tt →
   ∃ data,
     writes_of (trace_of (associate env p)) = [(pathToConfig p, data)]
     ∧ writeFile env (pathToConfig p) data = Normal tt)
  ∧ (∀ e,
       result_of (associate env p) = Throw e →
       last (trace_of (associate env p)) = Some (Log LError [e])
       ∧ (writes_of (trace_of (associate env p)) = []
          ∨ ∃ data,
              writes_of (trace_of (associate env p)) = [(pathToConfig p, data)]
              ∧ writeFile env (pathToConfig p) data = Throw e)).
Proof.
  unfold associate. unfold_method. simpl.
  destruct (question env localpart_query false) as [localpart|e0]; simpl;
    [|by split; [|intros e [= <-]; auto]].
  destruct (get_prop (default VUndefined (config p !! "bridge")) "domain")
    as [domain|e0]; simpl; [|by split; [|intros e [= <-]; auto]].
  destruct (question env (password_query (account_id localpart domain)) true)
    as [password|e0]; simpl; [|by split; [|intros e [= <-]; auto]].
  destruct (get_prop (default VUndefined (config p !! "bridge")) "homeserverUrl")
    as [homeserverUrl|e0]; simpl; [|by split; [|intros e [= <-]; auto]].
  destruct (createClient env homeserverUrl) as [matrixClient|e0]; simpl;
    [|by split; [|intros e [= <-]; auto]].
  destruct (loginWithPassword matrixClient _ password) as [accessDat|e0]; simpl;
    [|by split; [|intros e [= <-]; auto]].
  destruct (writeFile env (pathToConfig p) _) as [[]|e0] eqn:Hwrite; simpl.
  - split; [|done]. intros _. by eexists.
  - split; [done|]. intros e [= <-]. split; [done|]. right. by eexists.
Qed.


(** ** The two listeners *)

(** X18. A members event touches the list of its own room only, and a
    second delivery of the same event changes nothing more. *)
Theorem members_event_frame (s : System) (state : RoomState) (r : RoomId) :
  (r ≠ roomId state →
   getMatrixRoomMembers (room_id_string r)
     (this (step (EmitRoomStateMembers state) s).2)
   = getMatrixRoomMembers (room_id_string r) (this s))
  ∧ (step (EmitRoomStateMembers state) (step (EmitRoomStateMembers state) s).2).2
    = (step (EmitRoomStateMembers state) s).2.
Proof.
  split.
  - intros Hne. rewrite !getMatrixRoomMembers_room, step_members_cache.
    destruct (started s); [|done].
    rewrite lookup_insert_ne; [done|].
    intros Heq. by apply room_id_string_inj in Heq.
  - simpl. destruct (started s) as [pr|] eqn:Hs; simpl; rewrite Hs; [|done].
    unfold exec, onRoomStateMembers. simpl. by rewrite insert_insert_eq.
Qed.

Lemma step_event_only a s :
  (∃ state, a = EmitRoomStateMembers state) →
  (step a s).1 = [] ∧ started (step a s).2 = started s.
Proof.
  intros [state ->]. simpl.
  by destruct (started s) eqn:Hs.
Qed.

(** X19. The two listeners do not meet: members events log nothing, record
    nothing in the trace and leave the start promise alone; sync events
    leave [this], the cache included, alone. *)
Theorem listeners_are_independent (acts : list action) (s : System) :
  (Forall (λ a, ∃ state, a = EmitRoomStateMembers state) acts →
   (run acts s).1 = [] ∧ started (run acts s).2 = started s)
  ∧ (Forall (λ a, ∃ state, a = EmitSync state) acts →
     this (run acts s).2 = this s).
Proof.
  split; intros Hacts; revert s;
    induction Hacts as [|a acts Ha _ IH]; intros s; try done.
  - rewrite run_cons_trace, run_cons_state.
    destruct (IH (step a s).2) as [-> ->].
    by destruct (step_event_only a s Ha) as [-> ->].
  - rewrite run_cons_state, IH. destruct Ha as [state ->].
    by apply step_other_this.
Qed.

Lemma synced_of_app t t' : synced_of (t ++ t') = synced_of t ++ synced_of t'.
Proof. apply omap_app. Qed.

(** X20. Once started, every sync event with state [PREPARED] logs [synced],
    the later ones too, although only the first settles the promise. *)
Theorem synced_logged_for_each_prepared (states : list string) (s : System) :
  is_Some (started s) →
  length (synced_of (run (EmitSync <$> states) s).1)
  = length (filter (λ state, state = "PREPARED") states).
Proof.
  revert s. induction states as [|state states IH]; intros s [pr Hs]; [done|].
  rewrite fmap_cons, run_cons_trace, synced_of_app, length_app.
  rewrite IH by by apply step_started.
  rewrite filter_cons. simpl. rewrite Hs. unfold onSync.
  case_bool_decide as Hprep; case_decide; try done.
  by destruct (promise_resolve VUndefined pr) as [t pr'] eqn:Hres;
    destruct pr; simplify_eq/=.
Qed.

(** ** Settings that are missing *)

(** The calls of [associate] up to the login, once the prompts are
    answered and the client is created. *)
Lemma associate_reaches_login env p localpart password domain homeserverUrl
    matrixClient :
  question env localpart_query false = Normal localpart →
  get_prop (default VUndefined (config p !! "bridge")) "domain" = Normal domain →
  question env (password_query (account_id localpart domain)) true
  = Normal password →
  get_prop (default VUndefined (config p !! "bridge")) "homeserverUrl"
  = Normal homeserverUrl →
  createClient env homeserverUrl = Normal matrixClient →
  ∃ banner rest,
    trace_of (associate env p)
    = Log LInfo [VStr banner]
        :: Question localpart_query false
        :: Question (password_query (account_id localpart domain)) true
        :: CreateClient homeserverUrl
        :: LoginWithPassword (account_id localpart domain) password
        :: rest.
Proof.
  intros Hlocalpart Hdomain Hpassword Hurl Hclient.
  unfold associate. unfold_method. simpl.
  rewrite Hlocalpart. simpl. rewrite Hdomain. simpl.
  rewrite Hpassword. simpl. rewrite Hurl. simpl. rewrite Hclient. simpl.
  destruct (loginWithPassword matrixClient _ password) as [accessDat|e]; simpl.
  - destruct (writeFile env _ _) as [[]|e]; simpl; by eexists _, _.
  - by eexists _, _.
Qed.

(** X21. [associate] does not check the domain: with a [bridge] section that
    has no [domain], the account identifier ends in [:undefined], and it is
    with this identifier that the password is asked for and the login
    attempted. *)
Theorem associate_without_domain (env : Env) (p : Puppet)
    (bridge : gmap string value) (localpart password : string)
    (matrixClient : MatrixClient) :
  config p !! "bridge" = Some (VObj bridge) →
  bridge !! "domain" = None →
  question env localpart_query false = Normal localpart →
  let id := "@" +:+ localpart +:+ ":undefined" in
  question env (password_query id) true = Normal password →
  createClient env (default VUndefined (bridge !! "homeserverUrl"))
  = Normal matrixClient →
  ∃ banner rest,
    trace_of (associate env p)
    = Log LInfo [VStr banner]
        :: Question localpart_query false
        :: Question (password_query id) true
        :: CreateClient (default VUndefined (bridge !! "homeserverUrl"))
        :: LoginWithPassword id password
        :: rest.
Proof.
  intros Hbridge Hdomain Hlocalpart id Hpassword Hclient.
  change id with (account_id localpart VUndefined) in *.
  apply associate_reaches_login with matrixClient; try done.
  - rewrite Hbridge. simpl. by rewrite Hdomain.
  - by rewrite Hbridge.
Qed.

(** X22. [startClient] does not check the credentials either: with a
    [puppet] section that has neither [id] nor [token], the SDK is asked for
    a client with both [undefined]. *)
Theorem startClient_without_credentials (env : Env) (p : Puppet)
    (bridge puppet : gmap string value) :
  config p !! "bridge" = Some (VObj bridge) →
  config p !! "puppet" = Some (VObj puppet) →
  puppet !! "id" = None →
  puppet !! "token" = None →
  ∃ rest,
    trace_of (startClient env p)
    = CreateClient
        (client_options (default VUndefined (bridge !! "homeserverUrl"))
           VUndefined VUndefined)
        :: rest.
Proof.
  intros Hbridge Hpuppet Hid Htoken.
  unfold startClient. unfold_method. unfold set_client, set_matrixRoomMembers.
  simpl. rewrite Hbridge, Hpuppet. simpl. rewrite Hid, Htoken. simpl.
  fold (client_options (default VUndefined (bridge !! "homeserverUrl"))
          VUndefined VUndefined).
  destruct (createClient env _) as [mc|e]; simpl; [|by eexists].
  destruct (client_startClient mc) as [[]|e]; simpl; by eexists.
Qed.

End Model.

Arguments Normal {number A} a.
Arguments Throw {number A} e.

(** ** The theorems at work *)

(** A runtime without numbers worth the name, and a concrete session: the
    configuration of the sample, started, with the members of one room. *)
#[local] Abbreviation toString0 := (λ _ : unit, "0").
#[local] Abbreviation stringify0 := (λ (_ : @value unit) (_ : nat), "{}").
#[local] Abbreviation run0 := (run toString0 stringify0).
#[local] Abbreviation step0 := (step toString0 stringify0).
#[local] Abbreviation built :=
  (new_Puppet (number := unit) "config.json" None sample_config).
#[local] Abbreviation started_session := (step0 (CallStartClient sample_env) built).2.
#[local] Abbreviation members_of r m := (EmitRoomStateMembers {| roomId := r; members := m |}).

(** The scenario of the specification: start, sync, then a members event. *)
Example start_sync_members :
  getMatrixRoomMembers "!abc:example.org"
    (this (run0 [CallStartClient sample_env; EmitSync "PREPARED";
                 members_of sample_room members_ab] built).2)
  = MemberList ["@a:example.org"; "@b:example.org"]
  ∧ started (run0 [CallStartClient sample_env; EmitSync "PREPARED"] built).2
    = Some (Fulfilled VUndefined).
Proof. split; vm_compute; reflexivity. Qed.

(** A name of the prototype is answered with the inherited member. *)
Example inherited_member :
  getMatrixRoomMembers "toString" (this built) = InheritedMember "toString".
Proof. reflexivity. Qed.

Lemma members_event_replaces_witness :
  is_Some (started started_session)
  ∧ getMatrixRoomMembers "!abc:example.org"
      (this (run0 ([EmitSync "PREPARED"]
                   ++ members_of sample_room members_abc
                   :: [EmitSync "SYNCING"]
                   ++ members_of sample_room members_ab
                   :: [CallJoinRoom "!private:example.org"])
               started_session).2)
    = MemberList ["@a:example.org"; "@b:example.org"].
Proof.
  split.
  - eexists. vm_compute. reflexivity.
  - apply (members_event_replaces toString0 stringify0 started_session
             [EmitSync "PREPARED"] [EmitSync "SYNCING"]
             [CallJoinRoom "!private:example.org"] sample_room
             members_abc members_ab).
    + eexists. vm_compute. reflexivity.
    + repeat constructor.
Defined.

Lemma unknown_room_has_no_members_witness :
  getMatrixRoomMembers "!other:example.org"
    (this (run0 [members_of sample_room members_abc; EmitSync "PREPARED"] built).2)
  = MemberList []
  ∧ getMatrixRoomMembers "!other:example.org"
      (this (run0 [CallStartClient sample_env;
                   members_of sample_room members_abc; EmitSync "PREPARED"]
               started_session).2)
    = MemberList [].
Proof.
  pose proof (unknown_room_has_no_members toString0 stringify0
                {| opaque_id := "other:example.org" |}
                [members_of sample_room members_abc; EmitSync "PREPARED"]
                ltac:(repeat constructor)) as [Hbuilt Hstarted].
  split.
  - apply Hbuilt.
  - apply Hstarted. vm_compute. reflexivity.
Defined.

Lemma start_promise_resolves_once_witness :
  result_of (startClient sample_env (this built)) = Normal tt
  ∧ started (run0 [EmitSync "SYNCING"; members_of sample_room members_ab;
                   EmitSync "PREPARED"; EmitSync "SYNCING"; EmitSync "PREPARED";
                   EmitSync "ERROR"]
               started_session).2
    = Some (Fulfilled VUndefined)
  ∧ settlements_of
      (run0 [EmitSync "SYNCING"; members_of sample_room members_ab;
             EmitSync "PREPARED"; EmitSync "SYNCING"; EmitSync "PREPARED";
             EmitSync "ERROR"]
         started_session).1
    = [Normal VUndefined].
Proof.
  split; [vm_compute; reflexivity|].
  apply (start_promise_resolves_once toString0 stringify0 built sample_env
           [EmitSync "SYNCING"; members_of sample_room members_ab]
           [EmitSync "SYNCING"; EmitSync "PREPARED"; EmitSync "ERROR"]).
  - vm_compute. reflexivity.
  - repeat constructor.
  - repeat constructor.
Defined.

#[local] Abbreviation ready := (sample_puppet (number := unit)).

Lemma joinRoom_three_outcomes_witness :
  joinRoom "!abc:example.org" ready
  = ([JoinRoom "!abc:example.org"], ready, Normal VUndefined)
  ∧ joinRoom "!empty:example.org" ready
    = ([JoinRoom "!empty:example.org"; Log LWarn [VStr no_known_servers_warning]],
       ready, Normal (VBool true))
  ∧ joinRoom "!private:example.org" ready
    = ([JoinRoom "!private:example.org";
        Log LWarn [VStr "ignoring error from puppet join room: ";
                   VStr "You are not invited to this room"]],
       ready, Normal VUndefined).
Proof.
  split; [|split].
  - apply (joinRoom_three_outcomes ready sample_client "!abc:example.org"
             ltac:(reflexivity)) with (v := VUndefined).
    vm_compute. reflexivity.
  - apply (joinRoom_three_outcomes ready sample_client "!empty:example.org"
             ltac:(reflexivity)) with (err := error_with_message "No known servers").
    + vm_compute. reflexivity.
    + vm_compute. reflexivity.
  - apply (joinRoom_three_outcomes ready sample_client "!private:example.org"
             ltac:(reflexivity))
      with (err := error_with_message "You are not invited to this room").
    + vm_compute. reflexivity.
    + vm_compute. reflexivity.
    + discriminate.
Defined.

Lemma getRoom_swallows_failures_witness :
  getRoom "#skype_room:example.org" ready
  = ([GetRoomIdForAlias "#skype_room:example.org";
      Log LDebug
        [VStr "the room doesn't exist. we need to create it for the first time"]],
     ready, Normal VUndefined).
Proof.
  apply (getRoom_swallows_failures ready "#skype_room:example.org")
    with (mc := sample_client) (err := error_with_message "Room alias not found").
  - reflexivity.
  - vm_compute. reflexivity.
Defined.

Lemma invite_all_or_nothing_witness :
  invites_of
    (trace_of (invite "!abc:example.org"
                 (Some ["@alice:example.org"; "@eve:example.org"]) ready))
  = [("!abc:example.org", "@alice:example.org");
     ("!abc:example.org", "@eve:example.org")]
  ∧ ∃ elements,
      result_of (invite "!abc:example.org"
                   (Some ["@alice:example.org"; "@eve:example.org"]) ready)
      = Normal (ReturnPromiseAll elements)
      ∧ ∃ e, (invite_all "!abc:example.org" elements [0; 1]).2 = Rejected e.
Proof.
  destruct (invite_all_or_nothing ready sample_client "!abc:example.org"
              ["@alice:example.org"; "@eve:example.org"] ltac:(reflexivity))
    as (elements & Hinvite & Hcalls & Hfail).
  split; [exact Hcalls|].
  exists elements. split; [by rewrite Hinvite|].
  pose proof (Hfail 1 "@eve:example.org" (error_with_message "User is banned")
                [0; 1] ltac:(reflexivity) ltac:(vm_compute; reflexivity))
    as [_ Hrejected].
  apply Hrejected. apply list_elem_of_further, list_elem_of_here.
Defined.

Lemma associate_rewrites_only_puppet_witness :
  writes_of (trace_of (associate toString0 (sample_stringify toString0)
                         sample_env ready))
  = [("config.json", "{'bridge':{'domain':'example.org','homeserverUrl':'https://hs.example'},'puppet':{'id':'@bob:example.org','localpart':'bob','token':'fresh-token'}}")]
  ∧ writes_of (trace_of (associate toString0 (sample_stringify toString0)
                           wrong_password_env ready)) = []
  ∧ result_of (associate toString0 (sample_stringify toString0)
                 wrong_password_env ready)
    = Throw (error_with_message "Invalid password").
Proof.
  destruct (associate_rewrites_only_puppet toString0 (sample_stringify toString0)
              sample_env ready
              "bob" "secret" (VStr "example.org") (VStr "https://hs.example")
              sample_client
              ltac:(vm_compute; reflexivity) ltac:(vm_compute; reflexivity)
              ltac:(vm_compute; reflexivity) ltac:(vm_compute; reflexivity)
              ltac:(vm_compute; reflexivity)) as [Hsuccess _].
  destruct (associate_rewrites_only_puppet toString0 (sample_stringify toString0)
              wrong_password_env
              ready "bob" "guess" (VStr "example.org") (VStr "https://hs.example")
              sample_client
              ltac:(vm_compute; reflexivity) ltac:(vm_compute; reflexivity)
              ltac:(vm_compute; reflexivity) ltac:(vm_compute; reflexivity)
              ltac:(vm_compute; reflexivity)) as [_ Hfailure].
  split.
  - destruct (Hsuccess {| access_token := VStr "fresh-token" |}) as [Hwrite _].
    + vm_compute. reflexivity.
    + rewrite Hwrite. vm_compute. reflexivity.
  - apply (Hfailure (error_with_message "Invalid password")).
    vm_compute. reflexivity.
Defined.

(** ** Where the code departs from the specification *)

(** C5. For the empty list, [invite] does not log at debug level: the one
    line it logs is at info level. *)
Lemma invite_empty_list_logs_info :
  logs_of (trace_of (invite "!abc:example.org" (Some []) ready))
  = [(LInfo, [VStr "Users to invite"; VArr []])]
  ∧ ¬ ∃ args,
        (LDebug, args)
        ∈ logs_of (trace_of (invite "!abc:example.org" (Some []) ready)).
Proof.
  split; [reflexivity|].
  intros [args Hin]. apply list_elem_of_singleton in Hin. discriminate Hin.
Qed.

(** C9. A [startClient] whose client creation fails leaves the cache as it
    was: the members learnt after an earlier start are still there. *)
Lemma failed_start_keeps_cache :
  getMatrixRoomMembers "!abc:example.org"
    (this (run0 [CallStartClient sample_env;
                 members_of sample_room members_ab;
                 CallStartClient failing_env] built).2)
  = MemberList ["@a:example.org"; "@b:example.org"]
  ∧ matrixRoomMembers
      (this (run0 [CallStartClient sample_env;
                   members_of sample_room members_ab;
                   CallStartClient failing_env] built).2)
    ≠ ∅.
Proof.
  split; [vm_compute; reflexivity|].
  intros Hempty.
  apply (f_equal (λ cache, cache !! "!abc:example.org")) in Hempty.
  vm_compute in Hempty. discriminate Hempty.
Qed.

(** ** The further properties at work *)

#[local] Abbreviation unstarted := (unstarted_puppet (number := unit)).
#[local] Abbreviation unconfigured := (unconfigured_puppet (number := unit)).
#[local] Abbreviation sparse := (sparse_puppet (number := unit)).
#[local] Abbreviation known := (known_rooms_puppet (number := unit)).
#[local] Abbreviation known_client := (known_rooms_client (number := unit)).
#[local] Abbreviation two_invites :=
  (invite_promise (number := unit) sample_client "!abc:example.org"
     <$> ["@alice:example.org"; "@carol:example.org"]).

Lemma startClient_needs_config_witness :
  trace_of (startClient sample_env unconfigured) = []
  ∧ state_of (startClient sample_env unconfigured) = unconfigured.
Proof.
  pose proof (startClient_needs_config sample_env unconfigured
                ltac:(left; vm_compute; reflexivity)) as (Htrace & Hstate & _).
  by split.
Defined.


Lemma startClient_success_installs_client_witness :
  result_of (startClient sample_env unstarted) = Normal tt
  ∧ ∃ baseUrl userId accessToken mc,
      get_prop (default VUndefined (config unstarted !! "bridge")) "homeserverUrl"
      = Normal baseUrl
      ∧ get_prop (default VUndefined (config unstarted !! "puppet")) "id"
        = Normal userId
      ∧ get_prop (default VUndefined (config unstarted !! "puppet")) "token"
        = Normal accessToken
      ∧ createClient sample_env (client_options baseUrl userId accessToken)
        = Normal mc
      ∧ client (state_of (startClient sample_env unstarted)) = Some mc
      ∧ trace_of (startClient sample_env unstarted)
        = [CreateClient (client_options baseUrl userId accessToken);
           StartClient; On "RoomState.members"; On "sync"].
Proof.
  split; [vm_compute; reflexivity|].
  apply (startClient_success_installs_client sample_env unstarted).
  vm_compute. reflexivity.
Defined.

Lemma unstarted_joinRoom_getRoom_swallow_witness :
  result_of (joinRoom "!abc:example.org" unstarted) = Normal VUndefined
  ∧ result_of (getRoom "#abc:example.org" unstarted) = Normal VUndefined.
Proof.
  destruct (unstarted_joinRoom_getRoom_swallow unstarted "!abc:example.org"
              ltac:(reflexivity)) as [[message Hjoin] _].
  destruct (unstarted_joinRoom_getRoom_swallow unstarted "#abc:example.org"
              ltac:(reflexivity)) as [_ Hroom].
  by rewrite Hjoin, Hroom.
Defined.

Lemma unstarted_calls_raise_witness :
  (∃ e, result_of (getUserId unstarted) = Throw e
        ∧ get_prop e "name" = Normal (VStr "TypeError"))
  ∧ invites_of (trace_of (invite "!abc:example.org"
                            (Some ["@alice:example.org"; "@carol:example.org"])
                            unstarted)) = [].
Proof.
  destruct (unstarted_calls_raise unstarted "!abc:example.org"
              "@alice:example.org" ["@carol:example.org"] ltac:(reflexivity))
    as ((e & Huser & Hname) & _ & _ & (e' & Hinvite & _) & _).
  split.
  - exists e. by rewrite Huser.
  - by rewrite Hinvite.
Defined.

Lemma getRoomAliases_known_room_witness :
  result_of (getRoomAliases "!nowhere:example.org" known) = Normal None
  ∧ ∃ before room after,
      getRooms known_client = before ++ room :: after
      ∧ room_roomId room = "!known:example.org"
      ∧ room_getAliases room = ["#known:example.org"; "#skype_1:example.org"]
      ∧ ∀ other, other ∈ before → room_roomId other ≠ "!known:example.org".
Proof.
  split.
  - apply (getRoomAliases_known_room known known_client
             "!nowhere:example.org" ltac:(reflexivity)).
    intros room Hin.
    repeat (apply elem_of_cons in Hin as [->|Hin]; [discriminate|]).
    by apply elem_of_nil in Hin.
  - apply (getRoomAliases_known_room known known_client
             "!known:example.org" ltac:(reflexivity)).
    vm_compute. reflexivity.
Defined.

Lemma getRoom_defined_result_witness :
  ∃ mc response,
    client known = Some mc
    ∧ getRoomIdForAlias mc "#known:example.org" = Normal response
    ∧ room_id response = VStr "!known:example.org".
Proof.
  apply (getRoom_defined_result known "#known:example.org").
  - vm_compute. reflexivity.
  - discriminate.
Defined.

Lemma invite_fulfilled_when_all_settled_witness :
  (∃ results,
     (invite_all "!abc:example.org" two_invites [1; 0]).2 = Fulfilled (VArr results)
     ∧ length results = 2)
  ∧ (invite_all "!abc:example.org" two_invites [1]).2 = Pending.
Proof.
  assert (Forall (λ el, ∃ v, invite_outcome el = Normal v) two_invites) as Hok.
  { repeat constructor; eexists; vm_compute; reflexivity. }
  split.
  - apply (invite_fulfilled_when_all_settled "!abc:example.org" two_invites [1; 0]
             Hok).
    intros [|[|i]] Hi; [right; left|left|simpl in Hi; lia].
  - apply (invite_fulfilled_when_all_settled "!abc:example.org" two_invites [1]
             Hok) with (i := 0).
    + simpl. lia.
    + intros Hin. apply elem_of_cons in Hin as [Hin|Hin]; [discriminate Hin|].
      by apply elem_of_nil in Hin.
Defined.

Lemma associate_writes_at_most_once_witness :
  ∃ data,
    writes_of (trace_of (associate toString0 stringify0 sample_env ready))
    = [("config.json", data)]
    ∧ writeFile (sample_env (number := unit)) "config.json" data = Normal tt.
Proof.
  apply (associate_writes_at_most_once toString0 stringify0 sample_env ready).
  vm_compute. reflexivity.
Defined.


Lemma members_event_frame_witness :
  getMatrixRoomMembers "!other:example.org"
    (this (step0 (members_of sample_room members_ab) started_session).2)
  = getMatrixRoomMembers "!other:example.org" (this started_session).
Proof.
  apply (members_event_frame toString0 stringify0 started_session
           {| roomId := sample_room; members := members_ab |}
           {| opaque_id := "other:example.org" |}).
  discriminate.
Defined.

Lemma listeners_are_independent_witness :
  (run0 [members_of sample_room members_abc; members_of sample_room members_ab]
     started_session).1 = []
  ∧ this (run0 [EmitSync "PREPARED"; EmitSync "SYNCING"] started_session).2
    = this started_session.
Proof.
  split.
  - apply (listeners_are_independent toString0 stringify0
             [members_of sample_room members_abc; members_of sample_room members_ab]
             started_session).
    repeat constructor; by eexists.
  - apply (listeners_are_independent toString0 stringify0
             [EmitSync "PREPARED"; EmitSync "SYNCING"] started_session).
    repeat constructor; by eexists.
Defined.

Lemma synced_logged_for_each_prepared_witness :
  length (synced_of (run0 (EmitSync <$> ["SYNCING"; "PREPARED"; "PREPARED"])
                       started_session).1)
  = 2.
Proof.
  rewrite (synced_logged_for_each_prepared toString0 stringify0
             ["SYNCING"; "PREPARED"; "PREPARED"] started_session).
  - vm_compute. reflexivity.
  - eexists. vm_compute. reflexivity.
Defined.

Lemma associate_without_domain_witness :
  ∃ banner rest,
    trace_of (associate toString0 stringify0 sample_env sparse)
    = Log LInfo [VStr banner]
        :: Question localpart_query false
        :: Question (password_query "@bob:undefined") true
        :: CreateClient (VStr "https://hs.example")
        :: LoginWithPassword "@bob:undefined" "secret"
        :: rest.
Proof.
  refine (associate_without_domain toString0 stringify0 sample_env sparse
           (<["homeserverUrl" := VStr "https://hs.example"]> ∅
              : gmap string (@value unit))
           "bob" "secret" sample_client _ _ _ _ _);
    vm_compute; reflexivity.
Defined.

Lemma startClient_without_credentials_witness :
  ∃ rest,
    trace_of (startClient sample_env sparse)
    = CreateClient (client_options (VStr "https://hs.example") VUndefined VUndefined)
        :: rest.
Proof.
  refine (startClient_without_credentials sample_env sparse
           (<["homeserverUrl" := VStr "https://hs.example"]> ∅
              : gmap string (@value unit))
           (∅ : gmap string (@value unit)) _ _ _ _);
    vm_compute; reflexivity.
Defined.
